(** * Construction-co: the hooks and the carousel of [src/App.jsx]

    A shallow embedding of the three stateful pieces of the site:

    - [InView]: the [useInView] hook (an IntersectionObserver callback
      over two [useState] cells);
    - [Carousel]: the image slider of [HomePage] (a [useState] index, a
      [useRef] holding the handle of a [setInterval] timer);
    - [FrameAnimation]: the [useFrameAnimation] hook (a
      [requestAnimationFrame] loop over a [useState] value and a
      [useRef] start timestamp).

    React state cells and refs are fields of a record that is passed
    from event to event; the host (timer table, frame-callback queue,
    clock) is part of that record.  JavaScript numbers are integers
    ([Z]) where the code only counts, and exact rationals ([Q]) where it
    divides: IEEE rounding is not modelled. *)

From Stdlib Require Import ZArith QArith Qround Qminmax Lia Lqa Bool List String Sorted.
From stdpp Require Import base option list gmap.
Import ListNotations.

Local Open Scope Z_scope.

(** ** [useInView] *)

Module InView.

(** The [options] object.  [once] is [None] when the caller leaves the
    field out ([options.once] is [undefined]). *)
Record Options := { threshold : Q; once : option bool }.

(** What the callback reads of an IntersectionObserverEntry.  The
    observer is built with [options], so [isIntersecting] is the
    host's comparison of the visible fraction with [threshold]. *)
Record Entry := { isIntersecting : bool }.

(** The two [useState] cells. *)
Record State := { inView : bool; hasAnimated : bool }.

Definition initial : State := {| inView := false; hasAnimated := false |}.

(** [options.once === false]: strict equality, [undefined] is not
    [false]. *)
Definition once_is_false (o : Options) : bool :=
  match once o with
  | Some false => true
  | _ => false
  end.

(** The observer callback.  The effect depends on [hasAnimated], so the
    callback is rebuilt after every change and reads the current cell. *)
Definition callback (o : Options) (s : State) (entry : Entry) : State :=
  if isIntersecting entry && negb (hasAnimated s) then
    {| inView := true; hasAnimated := true |}
  else if negb (isIntersecting entry) && once_is_false o then
    {| inView := false; hasAnimated := hasAnimated s |}
  else s.

(** A sequence of observation events, oldest first. *)
Definition observe (o : Options) (s : State) (entries : list Entry) : State :=
  fold_left (callback o) entries s.

Definition enters : Entry := {| isIntersecting := true |}.
Definition leaves : Entry := {| isIntersecting := false |}.

(** The option objects the components pass. *)
Definition MotionDiv_options (once_prop : bool) : Options :=
  {| threshold := 1 # 10; once := Some once_prop |}.
Definition SectionTitle_options : Options :=
  {| threshold := 2 # 10; once := Some true |}.
Definition AnimatedCounter_options : Options :=
  {| threshold := 5 # 10; once := Some true |}.
Definition HomePage_options : Options :=
  {| threshold := 1 # 10; once := None |}.
Definition AnimatedSection_options : Options :=
  {| threshold := 1 # 10; once := None |}.

End InView.

(** ** The image slider of [HomePage] *)

Module Carousel.

(** The component state, and the part of the host it talks to:
    [setInterval] handles are integers greater than zero, and the
    table maps each active handle to the time before which its
    callback does not run. *)
Record State := {
  currentImageIndex : Z;      (* useState(0) *)
  intervalRef : option Z;     (* useRef(null): null or a timer handle *)
  timers : gmap Z Z;          (* host: active handle |-> earliest next run *)
  nextHandle : Z;             (* host: the handle setInterval returns next *)
  now : Z                     (* host: clock, in ms since mount *)
}.

Definition with_index (i : Z) (s : State) : State :=
  {| currentImageIndex := i; intervalRef := intervalRef s;
     timers := timers s; nextHandle := nextHandle s; now := now s |}.

Definition with_ref (r : option Z) (s : State) : State :=
  {| currentImageIndex := currentImageIndex s; intervalRef := r;
     timers := timers s; nextHandle := nextHandle s; now := now s |}.

Definition with_timers (t : gmap Z Z) (s : State) : State :=
  {| currentImageIndex := currentImageIndex s; intervalRef := intervalRef s;
     timers := t; nextHandle := nextHandle s; now := now s |}.

(** The period of the slider. *)
Definition period : Z := 5000.

(** [setInterval(cb, delay)]: a fresh handle, first run [delay] ms
    from now. *)
Definition setInterval (delay : Z) (s : State) : Z * State :=
  (nextHandle s,
   {| currentImageIndex := currentImageIndex s; intervalRef := intervalRef s;
      timers := <[nextHandle s := now s + delay]> (timers s);
      nextHandle := nextHandle s + 1; now := now s |}).

(** [clearInterval(h)]; [clearInterval(null)] does nothing. *)
Definition clearInterval (h : option Z) (s : State) : State :=
  match h with
  | Some id => with_timers (delete id (timers s)) s
  | None => s
  end.

(** [if (intervalRef.current)]: [null] and [0] are falsy. *)
Definition truthy (r : option Z) : bool :=
  match r with
  | Some id => negb (id =? 0)
  | None => false
  end.

Section Slider.

(** The [images] array; only its length matters. *)
Variable images : list string.

Definition itemCount : Z := Z.of_nat (length images).

(** The updater passed to [setCurrentImageIndex] by the interval
    callback and by [handleNextClick].  [%] is JavaScript's
    remainder ([Z.rem]: sign of the dividend); with [itemCount = 0]
    JavaScript yields NaN, which is outside the model. *)
Definition next_index (prevIndex : Z) : Z := Z.rem (prevIndex + 1) itemCount.

(** The updater of [handlePrevClick]. *)
Definition prev_index (prevIndex : Z) : Z :=
  Z.rem (prevIndex - 1 + itemCount) itemCount.

Definition startAutoSlide (s : State) : State :=
  let (h, s') := setInterval period s in
  with_ref (Some h) s'.

Definition resetTimer (s : State) : State :=
  let s' := if truthy (intervalRef s)
            then clearInterval (intervalRef s) s else s in
  startAutoSlide s'.

Definition handlePrevClick (s : State) : State :=
  resetTimer (with_index (prev_index (currentImageIndex s)) s).

Definition handleNextClick (s : State) : State :=
  resetTimer (with_index (next_index (currentImageIndex s)) s).

(** The interval callback. *)
Definition autoSlide (s : State) : State :=
  with_index (next_index (currentImageIndex s)) s.

(** The first render: [useState(0)], [useRef(null)], no timer yet. *)
Definition fresh : State :=
  {| currentImageIndex := 0; intervalRef := None;
     timers := ∅; nextHandle := 1; now := 0 |}.

(** The effect, which runs once ([images.length] never changes). *)
Definition mount : State := startAutoSlide fresh.

(** The cleanup of the effect. *)
Definition unmount (s : State) : State := clearInterval (intervalRef s) s.

(** What can happen to a mounted slider.  The host runs the callback
    of an active timer no earlier than the time in the table, and
    then waits a full period again (HTML Standard, timer
    initialisation steps with repeat). *)
Inductive Event :=
| Elapse (ms : Z)
| IntervalFires (h : Z)
| PrevClick
| NextClick.

Definition step (s : State) (e : Event) : option State :=
  match e with
  | Elapse ms =>
      if 0 <=? ms then
        Some {| currentImageIndex := currentImageIndex s;
                intervalRef := intervalRef s; timers := timers s;
                nextHandle := nextHandle s; now := now s + ms |}
      else None
  | IntervalFires h =>
      match timers s !! h with
      | Some due =>
          if due <=? now s then
            Some (autoSlide
                    (with_timers (<[h := now s + period]> (timers s)) s))
          else None
      | None => None
      end
  | PrevClick => Some (handlePrevClick s)
  | NextClick => Some (handleNextClick s)
  end.

(** A trace of events; [None] when the host could not have produced
    it. *)
Fixpoint run (s : State) (es : list Event) : option State :=
  match es with
  | [] => Some s
  | e :: es' =>
      match step s e with
      | Some s' => run s' es'
      | None => None
      end
  end.

(** The quiet time after one more event. *)
Definition quiet_after (quiet : Z) (e : Event) : Z :=
  match e with
  | Elapse ms => quiet + ms
  | _ => 0
  end.

(** Time elapsed at the end of a trace since its most recent action
    (a click or an automatic advance; the mount when there is none). *)
Definition since_action (es : list Event) : Z :=
  fold_left quiet_after es 0.

Definition is_click (e : Event) : Prop := e = PrevClick \/ e = NextClick.

(** The index is a position in [images]. *)
Definition in_bounds (s : State) : Prop :=
  0 <= currentImageIndex s < itemCount.

(** One interval is active, its handle is the one in [intervalRef],
    and it does not run before a full period has passed since the
    last action, [quiet] ms ago. *)
Definition armed (quiet : Z) (s : State) : Prop :=
  exists h due,
    intervalRef s = Some h /\ 0 < h < nextHandle s /\
    timers s = {[ h := due ]} /\ now s + period <= due + quiet.

End Slider.

(** The array of [HomePage]. *)
Definition HomePage_images : list string :=
  ["banner1.jpg"; "ordnance.jpg"; "banner3.jpg";
   "lgbanner.jpg"; "wirebundles.jpg"; "cctv.jpg"]%string.

End Carousel.

(** ** [useFrameAnimation] *)

Module FrameAnimation.

Local Open Scope Q_scope.

(** The arguments of one call of the hook. *)
Record Props := { endValue : Q; duration : Q; trigger : bool }.

(** An [animate] closure: it captures the [endValue] and [duration]
    of the render whose effect created it. *)
Record Animate := { a_endValue : Q; a_duration : Q }.

(** The hook's cells, what React keeps for its effect, and the
    host's list of frame callbacks (oldest first). *)
Record State := {
  value : Z;                        (* useState(0), then Math.floor results *)
  startRef : option Q;              (* useRef(null) *)
  deps : option Props;              (* React: [trigger, endValue, duration] of the last effect *)
  cleanup : option Z;               (* React: the handle the last effect's cleanup cancels *)
  callbacks : list (Z * Animate);   (* host: pending requestAnimationFrame callbacks *)
  nextHandle : Z                    (* host: the handle returned next *)
}.

Definition fresh : State :=
  {| value := 0; startRef := None; deps := None; cleanup := None;
     callbacks := []; nextHandle := 1 |}.

(** [setValue(v)].  React drops an update that arrives after the
    unmount; the model still writes the cell, so that a late call
    shows. *)
Definition setValue (v : Z) (s : State) : State :=
  {| value := v; startRef := startRef s; deps := deps s;
     cleanup := cleanup s; callbacks := callbacks s;
     nextHandle := nextHandle s |}.

Definition set_startRef (r : option Q) (s : State) : State :=
  {| value := value s; startRef := r; deps := deps s;
     cleanup := cleanup s; callbacks := callbacks s;
     nextHandle := nextHandle s |}.

Definition set_callbacks (l : list (Z * Animate)) (s : State) : State :=
  {| value := value s; startRef := startRef s; deps := deps s;
     cleanup := cleanup s; callbacks := l; nextHandle := nextHandle s |}.

Definition requestAnimationFrame (a : Animate) (s : State) : Z * State :=
  (nextHandle s,
   {| value := value s; startRef := startRef s; deps := deps s;
      cleanup := cleanup s; callbacks := callbacks s ++ [(nextHandle s, a)];
      nextHandle := nextHandle s + 1 |}).

Definition cancelAnimationFrame (h : Z) (s : State) : State :=
  set_callbacks (filter (fun c => fst c <> h) (callbacks s)) s.

(** [!startRef.current]: [null] and [0] are falsy. *)
Definition unset (r : option Q) : bool :=
  match r with
  | Some t => Qeq_bool t 0
  | None => true
  end.

(** [Math.floor(Math.min(progress / duration, 1) * endValue)].  For
    [duration = 0] JavaScript divides to NaN or Infinity, which [Q]
    does not have: the statements below take [0 < duration].
    JavaScript numbers are doubles, and the quotient and the product
    are rounded; here they are exact.  The two agree where the ratio
    is 0 or 1 (the endpoints of a run), on the order of the values and
    on their bounds, and may differ in between (elapsed 1400 of
    2000 with target 350: 244 in doubles, 245 here).  The properties
    below state endpoints, order and bounds, not values in between. *)
Definition ratio_of (duration progress : Q) : Q := Qmin (progress / duration) 1.

Definition value_at (endValue duration progress : Q) : Z :=
  Qfloor (ratio_of duration progress * endValue).

(** [if (!startRef.current) startRef.current = timestamp], and the
    start the callback then reads. *)
Definition start_for (timestamp : Q) (s : State) : Q :=
  if unset (startRef s) then timestamp
  else match startRef s with
       | Some start => start
       | None => timestamp
       end.

(** The frame callback. *)
Definition animate (a : Animate) (timestamp : Q) (s : State) : State :=
  let start := start_for timestamp s in
  let s1 := set_startRef (Some start) s in
  let progress := timestamp - start in
  let ratio := ratio_of (a_duration a) progress in
  let s2 := setValue (Qfloor (ratio * a_endValue a)) s1 in
  if Qlt_le_dec ratio 1 then snd (requestAnimationFrame a s2) else s2.

(** The body of the effect; it leaves a cleanup only when [trigger]
    holds. *)
Definition effect (p : Props) (s : State) : State :=
  if negb (trigger p) then
    {| value := 0; startRef := None; deps := deps s; cleanup := None;
       callbacks := callbacks s; nextHandle := nextHandle s |}
  else
    let (h, s') := requestAnimationFrame
                     {| a_endValue := endValue p; a_duration := duration p |} s in
    {| value := value s'; startRef := startRef s'; deps := deps s';
       cleanup := Some h; callbacks := callbacks s';
       nextHandle := nextHandle s' |}.

Definition run_cleanup (s : State) : State :=
  match cleanup s with
  | Some h =>
      let s' := cancelAnimationFrame h s in
      {| value := value s'; startRef := startRef s'; deps := deps s';
         cleanup := None; callbacks := callbacks s';
         nextHandle := nextHandle s' |}
  | None => s
  end.

Definition set_deps (d : option Props) (s : State) : State :=
  {| value := value s; startRef := startRef s; deps := d;
     cleanup := cleanup s; callbacks := callbacks s;
     nextHandle := nextHandle s |}.

(** React compares the dependency array entry by entry. *)
Definition same_deps (p q : Props) : bool :=
  Bool.eqb (trigger p) (trigger q)
  && Qeq_bool (endValue p) (endValue q)
  && Qeq_bool (duration p) (duration q).

(** A render with arguments [p]: the effect runs on mount and when a
    dependency changed, after the cleanup of the previous run. *)
Definition render (p : Props) (s : State) : State :=
  match deps s with
  | Some q =>
      if same_deps q p then s
      else effect p (set_deps (Some p) (run_cleanup s))
  | None => effect p (set_deps (Some p) s)
  end.

Definition unmount (s : State) : State := set_deps None (run_cleanup s).

(** One display refresh: the host takes the list of callbacks and
    runs each with the same timestamp; what they request goes to the
    next refresh. *)
Definition frame (timestamp : Q) (s : State) : State :=
  fold_left (fun s' cb => animate (snd cb) timestamp s')
            (callbacks s) (set_callbacks [] s).

Inductive Event :=
| Render (p : Props)
| Frame (timestamp : Q)
| Unmount.

Definition step (s : State) (e : Event) : State :=
  match e with
  | Render p => render p s
  | Frame t => frame t s
  | Unmount => unmount s
  end.

Definition run (s : State) (es : list Event) : State := fold_left step es s.

(** The states after each of a series of refreshes, and the values
    they report. *)
Fixpoint states (s : State) (timestamps : list Q) : list State :=
  match timestamps with
  | [] => []
  | t :: ts => frame t s :: states (frame t s) ts
  end.

Definition reports (s : State) (timestamps : list Q) : list Z :=
  map value (states s timestamps).

Definition frames (s : State) (timestamps : list Q) : State :=
  run s (map Frame timestamps).

(** The call in [AnimatedCounter]. *)
Definition AnimatedCounter_props (end_ : Z) (inView : bool) : Props :=
  {| endValue := inject_Z end_; duration := 2000; trigger := inView |}.

(** The hook at rest: mounted without the trigger (or not rendered
    yet), value 0, no start, nothing scheduled. *)
Definition idle (s : State) : Prop :=
  value s = 0%Z /\ startRef s = None /\ callbacks s = [] /\
  cleanup s = None /\
  (deps s = None \/ exists q, deps s = Some q /\ trigger q = false).

(** Invariants of a run with one loop, for arguments [(e, d, true)]. *)
Section OneLoop.

Variables e d : Q.

Definition loop : Animate := {| a_endValue := e; a_duration := d |}.

(** The loop is pending with its start not latched (value 0) or
    latched (value as computed at the refresh [last]); or it has
    ended at [Math.floor(e)]. *)
Definition one_loop (last : Q) (s : State) : Prop :=
  match callbacks s with
  | [] =>
      exists start, startRef s = Some start /\ value s = Qfloor e /\
                    start + d <= last
  | [(_, a)] =>
      a = loop /\
      if unset (startRef s) then value s = 0%Z
      else exists start, startRef s = Some start /\
                         value s = value_at e d (last - start)
  | _ => False
  end.

(** The loop is pending with its start latched at [t0], or has
    ended at [Math.floor(e)]. *)
Definition latched_at (t0 : Q) (s : State) : Prop :=
  (exists h, callbacks s = [(h, loop)] /\ startRef s = Some t0) \/
  (callbacks s = [] /\ value s = Qfloor e).

End OneLoop.

End FrameAnimation.

(** ** The slides as [HomePage] renders them, and traces of the slider *)

Module CarouselView.
Import Carousel.

(** [opacity: index === currentImageIndex ? 1 : 0], for each index of
    [images.map]. *)
Definition opacities (images : list string) (s : State) : list Z :=
  map (fun index => if Z.of_nat index =? currentImageIndex s then 1 else 0)
      (seq 0 (length images)).

(** Steps forward (next, automatic advance) minus steps back in a
    trace. *)
Definition net_advance (es : list Event) : Z :=
  fold_left (fun acc e => match e with
                          | Elapse _ => acc
                          | IntervalFires _ => acc + 1
                          | PrevClick => acc - 1
                          | NextClick => acc + 1
                          end) es 0.

(** [k] periods without interaction, the host running the first
    interval (handle 1) exactly when it is due. *)
Fixpoint on_time (k : nat) : list Event :=
  match k with
  | O => []
  | S k' => on_time k' ++ [Elapse period; IntervalFires 1]
  end.

End CarouselView.

(** ** [AnimatedCounter]: the tracker driving the animation *)

Module AnimatedCounter.
Import FrameAnimation.

Local Open Scope Q_scope.

(** The two hooks of the component. *)
Record State := {
  tracker : InView.State;            (* useInView({ threshold: 0.5, once: true }) *)
  animation : FrameAnimation.State   (* useFrameAnimation(end, 2000, inView) *)
}.

Section Counter.

(** The [end] prop. *)
Variable end_ : Q.

(** The arguments [useFrameAnimation] gets in a render. *)
Definition props (inView : bool) : Props :=
  {| endValue := end_; duration := 2000; trigger := inView |}.

(** The first render: [inView] is false, so the effect of the
    animation runs its reset branch. *)
Definition mount : State :=
  {| tracker := InView.initial;
     animation := render (props (InView.inView InView.initial)) fresh |}.

(** An observer entry or a display refresh; each changes a state
    cell, so the component renders again and calls
    [useFrameAnimation] with the [inView] of that render. *)
Inductive Event :=
| Observed (entry : InView.Entry)
| Refresh (timestamp : Q).

Definition step (s : State) (ev : Event) : State :=
  match ev with
  | Observed entry =>
      let tr := InView.callback InView.AnimatedCounter_options (tracker s) entry in
      {| tracker := tr;
         animation := render (props (InView.inView tr)) (animation s) |}
  | Refresh t =>
      {| tracker := tracker s;
         animation := render (props (InView.inView (tracker s)))
                             (frame t (animation s)) |}
  end.

Definition run (s : State) (es : list Event) : State := fold_left step es s.

(** The number the component shows. *)
Definition animatedNumber (s : State) : Z := value (animation s).

(** The numbers shown after each event of a trace. *)
Fixpoint numbers (s : State) (es : list Event) : list Z :=
  match es with
  | [] => []
  | ev :: es' => animatedNumber (step s ev) :: numbers (step s ev) es'
  end.

(** The timestamps of the refreshes of a trace. *)
Fixpoint timestamps (es : list Event) : list Q :=
  match es with
  | [] => []
  | Observed _ :: es' => timestamps es'
  | Refresh t :: es' => t :: timestamps es'
  end.

(** The events that follow the first intersecting entry, if any. *)
Fixpoint after_entering (es : list Event) : option (list Event) :=
  match es with
  | [] => None
  | Observed entry :: es' =>
      if InView.isIntersecting entry then Some es' else after_entering es'
  | Refresh _ :: es' => after_entering es'
  end.

(** Not in view yet and at rest; or in view for good, the animation
    running its one loop. *)
Definition counting (last : Q) (s : State) : Prop :=
  (tracker s = InView.initial /\ animation s = render (props false) fresh) \/
  (tracker s = {| InView.inView := true; InView.hasAnimated := true |} /\
   deps (animation s) = Some (props true) /\
   one_loop end_ 2000 last (animation s)).

End Counter.

End AnimatedCounter.

(** ** [useParallax] *)

Module Parallax.

Local Open Scope Q_scope.

(** What [handleScroll] reads of the page: [ref.current] (null, or an
    element with the [top] of its bounding rectangle) and
    [window.innerHeight]. *)
Record Layout := { element : option Q; innerHeight : Q }.

(** The [useState] cell, what React keeps for the effect, and the
    scroll listeners of [window]; a listener is a [handleScroll]
    closure, which captures [speed]. *)
Record State := {
  transformY : Q;              (* useState(0) *)
  deps : option Q;             (* React: [speed] of the last effect *)
  cleanup : option Z;          (* React: the listener the cleanup removes *)
  listeners : list (Z * Q);    (* host: scroll listeners, in order of registration *)
  nextListener : Z             (* host: identity of the next closure *)
}.

Definition fresh : State :=
  {| transformY := 0; deps := None; cleanup := None;
     listeners := []; nextListener := 1 |}.


(** The call in [HomePage]. *)
Definition HomePage_speed : Q := - (2 # 10).

(** [(top / viewportHeight) * speed], times 100.  For a viewport of
    height 0 JavaScript divides to NaN or Infinity, which [Q] does not
    have: the statements about the value take [0 < viewportHeight].
    JavaScript rounds each operation to a double; here they are
    exact, so the properties below state the sign, the bounds and the
    endpoints of the offset and what it depends on, not its digits. *)
Definition offset (speed top viewportHeight : Q) : Q :=
  (top / viewportHeight) * speed * 100.

Definition handleScroll (speed : Q) (page : Layout) (s : State) : State :=
  match element page with
  | Some top =>
      {| transformY := offset speed top (innerHeight page);
         deps := deps s; cleanup := cleanup s;
         listeners := listeners s; nextListener := nextListener s |}
  | None => s
  end.

Definition addEventListener (speed : Q) (s : State) : Z * State :=
  (nextListener s,
   {| transformY := transformY s; deps := deps s; cleanup := cleanup s;
      listeners := listeners s ++ [(nextListener s, speed)];
      nextListener := nextListener s + 1 |}).

Definition removeEventListener (id : Z) (s : State) : State :=
  {| transformY := transformY s; deps := deps s; cleanup := cleanup s;
     listeners := filter (fun l => fst l <> id) (listeners s);
     nextListener := nextListener s |}.

(** The effect: register, then position the element once. *)
Definition effect (speed : Q) (page : Layout) (s : State) : State :=
  let (id, s1) := addEventListener speed s in
  let s2 := handleScroll speed page s1 in
  {| transformY := transformY s2; deps := deps s2; cleanup := Some id;
     listeners := listeners s2; nextListener := nextListener s2 |}.

Definition run_cleanup (s : State) : State :=
  match cleanup s with
  | Some id =>
      let s' := removeEventListener id s in
      {| transformY := transformY s'; deps := deps s'; cleanup := None;
         listeners := listeners s'; nextListener := nextListener s' |}
  | None => s
  end.

Definition set_deps (d : option Q) (s : State) : State :=
  {| transformY := transformY s; deps := d; cleanup := cleanup s;
     listeners := listeners s; nextListener := nextListener s |}.

(** A render with [speed], the page being as in [page] when the effect
    runs. *)
Definition render (speed : Q) (page : Layout) (s : State) : State :=
  match deps s with
  | Some old =>
      if Qeq_bool old speed then s
      else effect speed page (set_deps (Some speed) (run_cleanup s))
  | None => effect speed page (set_deps (Some speed) s)
  end.

(** A scroll notification: the host calls every listener. *)
Definition scroll (page : Layout) (s : State) : State :=
  fold_left (fun s' l => handleScroll (snd l) page s') (listeners s) s.

Definition unmount (s : State) : State := set_deps None (run_cleanup s).

Inductive Event :=
| Render (speed : Q) (page : Layout)
| Scroll (page : Layout).

Definition step (s : State) (e : Event) : State :=
  match e with
  | Render speed page => render speed page s
  | Scroll page => scroll page s
  end.

Definition run (s : State) (es : list Event) : State := fold_left step es s.

Definition page_of (e : Event) : Layout :=
  match e with
  | Render _ page => page
  | Scroll page => page
  end.

(** Mounted: one listener, the one the cleanup removes, with the
    speed of the last effect. *)
Definition listening (s : State) : Prop :=
  exists id speed,
    listeners s = [(id, speed)] /\ deps s = Some speed /\ cleanup s = Some id.

End Parallax.

(** ** [ContactPage] of [src/App.jsx]: the effect on [state.succeeded] *)

Module ContactPage.

(** The four [useState] cells, what React keeps for the effect, and
    the host's pending [setTimeout] callbacks (each of them is
    [() => setSuccessMessage('')]) with its clock. *)
Record State := {
  name : string;
  email : string;
  message : string;
  successmessage : string;
  deps : option bool;      (* React: [state.succeeded] of the last effect *)
  timeouts : gmap Z Z;     (* host: pending handle |-> earliest run *)
  nextHandle : Z;
  now : Z
}.

Definition fresh : State :=
  {| name := ""; email := ""; message := ""; successmessage := "";
     deps := None; timeouts := ∅; nextHandle := 1; now := 0 |}.

Definition sent_text : string :=
  "Your Message has been sent! We will get back to you shortly.".

(** How long the text stays, in ms. *)
Definition display_time : Z := 7000.

(** The effect; it returns no cleanup. *)
Definition effect (s : State) : State :=
  {| name := ""; email := ""; message := ""; successmessage := sent_text;
     deps := deps s;
     timeouts := <[nextHandle s := now s + display_time]> (timeouts s);
     nextHandle := nextHandle s + 1; now := now s |}.

Definition set_deps (d : option bool) (s : State) : State :=
  {| name := name s; email := email s; message := message s;
     successmessage := successmessage s; deps := d;
     timeouts := timeouts s; nextHandle := nextHandle s; now := now s |}.

(** A render in which [useForm] reports [succeeded]. *)
Definition render (succeeded : bool) (s : State) : State :=
  match deps s with
  | Some old =>
      if Bool.eqb old succeeded then s
      else effect (set_deps (Some succeeded) s)
  | None => effect (set_deps (Some succeeded) s)
  end.

Definition setName (v : string) (s : State) : State :=
  {| name := v; email := email s; message := message s;
     successmessage := successmessage s; deps := deps s;
     timeouts := timeouts s; nextHandle := nextHandle s; now := now s |}.

Definition setEmail (v : string) (s : State) : State :=
  {| name := name s; email := v; message := message s;
     successmessage := successmessage s; deps := deps s;
     timeouts := timeouts s; nextHandle := nextHandle s; now := now s |}.

Definition setMessage (v : string) (s : State) : State :=
  {| name := name s; email := email s; message := v;
     successmessage := successmessage s; deps := deps s;
     timeouts := timeouts s; nextHandle := nextHandle s; now := now s |}.

(** The callback of a timeout; the host forgets a timeout that ran. *)
Definition timeout_runs (h : Z) (s : State) : State :=
  {| name := name s; email := email s; message := message s;
     successmessage := ""; deps := deps s;
     timeouts := delete h (timeouts s);
     nextHandle := nextHandle s; now := now s |}.

Inductive Event :=
| Render (succeeded : bool)
| SetName (v : string)
| SetEmail (v : string)
| SetMessage (v : string)
| Elapse (ms : Z)
| TimeoutFires (h : Z).

Definition step (s : State) (e : Event) : option State :=
  match e with
  | Render succeeded => Some (render succeeded s)
  | SetName v => Some (setName v s)
  | SetEmail v => Some (setEmail v s)
  | SetMessage v => Some (setMessage v s)
  | Elapse ms =>
      if 0 <=? ms then
        Some {| name := name s; email := email s; message := message s;
                successmessage := successmessage s; deps := deps s;
                timeouts := timeouts s; nextHandle := nextHandle s;
                now := now s + ms |}
      else None
  | TimeoutFires h =>
      match timeouts s !! h with
      | Some due => if due <=? now s then Some (timeout_runs h s) else None
      | None => None
      end
  end.

Fixpoint run (s : State) (es : list Event) : option State :=
  match es with
  | [] => Some s
  | e :: es' =>
      match step s e with
      | Some s' => run s' es'
      | None => None
      end
  end.

(** [{state.succeeded && <h1>{successmessage}</h1>}]: the heading and
    its text, when there is one. *)
Definition heading (succeeded : bool) (s : State) : option string :=
  if succeeded then Some (successmessage s) else None.

(** After a submission that succeeded at [since]: the text is still
    there unless [display_time] has passed, and no timeout is due
    earlier. *)
Definition displaying (since : Z) (s : State) : Prop :=
  since <= now s /\
  map_Forall (fun _ due => since + display_time <= due) (timeouts s) /\
  (now s < since + display_time -> successmessage s = sent_text).

End ContactPage.

(** ** [ContactPage] of the earlier variant of the file: [handleSubmit] *)

Module ContactForm.

Local Open Scope string_scope.

(** What [JSON.stringify({ name, email, message })] carries. *)
Record Body := { body_name : string; body_email : string; body_message : string }.

(** The four [useState] cells, and the bodies posted to the endpoint
    so far, oldest first. *)
Record State := {
  name : string;
  email : string;
  message : string;
  status : string;
  posted : list Body
}.

Definition fresh : State :=
  {| name := ""; email := ""; message := ""; status := ""; posted := [] |}.

(** How the awaited [fetch] ends: a response with [ok], a response
    without it, or an exception. *)
Inductive Outcome := Ok | NotOk | Threw.

Definition sending_text : string := "Sending...".
Definition success_text : string :=
  "Message sent successfully! We will get back to you shortly.".
Definition failure_text : string :=
  "Failed to send message. Please try again later.".
Definition error_text : string :=
  "An error occurred. Please check your network connection.".

Definition setName (v : string) (s : State) : State :=
  {| name := v; email := email s; message := message s;
     status := status s; posted := posted s |}.

Definition setEmail (v : string) (s : State) : State :=
  {| name := name s; email := v; message := message s;
     status := status s; posted := posted s |}.

Definition setMessage (v : string) (s : State) : State :=
  {| name := name s; email := email s; message := v;
     status := status s; posted := posted s |}.

(** [handleSubmit] up to the [await]. *)
Definition submit (s : State) : State :=
  {| name := name s; email := email s; message := message s;
     status := sending_text;
     posted := (posted s ++ [ {| body_name := name s; body_email := email s;
                                 body_message := message s |} ])%list |}.

(** [handleSubmit] after the [await]. *)
Definition settle (o : Outcome) (s : State) : State :=
  match o with
  | Ok =>
      {| name := ""; email := ""; message := "";
         status := success_text; posted := posted s |}
  | NotOk =>
      {| name := name s; email := email s; message := message s;
         status := failure_text; posted := posted s |}
  | Threw =>
      {| name := name s; email := email s; message := message s;
         status := error_text; posted := posted s |}
  end.

(** [hay.includes(needle)]. *)
Fixpoint includes (needle hay : string) : bool :=
  if String.prefix needle hay then true
  else match hay with
       | EmptyString => false
       | String _ rest => includes needle rest
       end.

(** [text-green-600] or [text-red-600]. *)
Inductive Colour := Green | Red.

(** [{status && (<div className=...>{status}</div>)}]: nothing for
    the empty string. *)
Definition banner (s : State) : option (Colour * string) :=
  if String.eqb (status s) "" then None
  else Some (if includes "successfully" (status s) then Green else Red,
             status s).

Inductive Event :=
| SetName (v : string)
| SetEmail (v : string)
| SetMessage (v : string)
| Submit
| Settle (o : Outcome).

Definition step (s : State) (e : Event) : State :=
  match e with
  | SetName v => setName v s
  | SetEmail v => setEmail v s
  | SetMessage v => setMessage v s
  | Submit => submit s
  | Settle o => settle o s
  end.

Definition run (s : State) (es : list Event) : State := fold_left step es s.

End ContactForm.

(** ** [App], [Header] and [Footer]: the pages *)

Module Navigation.

Local Open Scope string_scope.

Inductive Page := HomePage | AboutPage | ServicesPage | ProjectsPage | ContactPage.

(** The [switch] of [renderPage], with its [default]. *)
Definition renderPage (currentPage : string) : Page :=
  if String.eqb currentPage "home" then HomePage
  else if String.eqb currentPage "about" then AboutPage
  else if String.eqb currentPage "services" then ServicesPage
  else if String.eqb currentPage "projects" then ProjectsPage
  else if String.eqb currentPage "contact" then ContactPage
  else HomePage.

(** [navLinks]: [id] and [title]. *)
Definition navLinks : list (string * string) :=
  [("home", "Home"); ("about", "About Us"); ("services", "Services");
   ("projects", "Projects"); ("contact", "Contact Us")].

(** The targets of the four quick links of [Footer]. *)
Definition footerLinks : list string :=
  ["about"; "services"; "projects"; "contact"].

(** [currentPage] of [App], [isMenuOpen] of [Header], and the vertical
    scroll position of the window. *)
Record State := {
  currentPage : string;
  isMenuOpen : bool;
  scrollY : Z
}.

Definition initial : State :=
  {| currentPage := "home"; isMenuOpen := false; scrollY := 0 |}.

Definition navigateTo (page : string) (s : State) : State :=
  {| currentPage := page; isMenuOpen := isMenuOpen s; scrollY := 0 |}.

Definition handleNavClick (page : string) (s : State) : State :=
  let s' := navigateTo page s in
  {| currentPage := currentPage s'; isMenuOpen := false; scrollY := scrollY s' |}.

(** [currentPage === link.id], which decides the highlight. *)
Definition active (s : State) (link : string * string) : bool :=
  String.eqb (currentPage s) (fst link).

(** What the user can do.  A link of the mobile menu exists only
    while the menu is open, and the two buttons of the home page only
    while that page is rendered. *)
Inductive Event :=
| Logo
| NavLink (index : nat)
| HeaderQuote
| ToggleMenu
| MobileLink (index : nat)
| FooterLink (index : nat)
| FooterQuote
| HomeQuote
| HomeServices
| UserScroll (y : Z).

Definition step (s : State) (e : Event) : option State :=
  match e with
  | Logo => Some (handleNavClick "home" s)
  | NavLink index =>
      match nth_error navLinks index with
      | Some link => Some (handleNavClick (fst link) s)
      | None => None
      end
  | HeaderQuote => Some (handleNavClick "contact" s)
  | ToggleMenu =>
      Some {| currentPage := currentPage s; isMenuOpen := negb (isMenuOpen s);
              scrollY := scrollY s |}
  | MobileLink index =>
      if isMenuOpen s then
        match nth_error navLinks index with
        | Some link => Some (handleNavClick (fst link) s)
        | None => None
        end
      else None
  | FooterLink index =>
      match nth_error footerLinks index with
      | Some page => Some (navigateTo page s)
      | None => None
      end
  | FooterQuote => Some (navigateTo "contact" s)
  | HomeQuote =>
      match renderPage (currentPage s) with
      | HomePage => Some (navigateTo "contact" s)
      | _ => None
      end
  | HomeServices =>
      match renderPage (currentPage s) with
      | HomePage => Some (navigateTo "services" s)
      | _ => None
      end
  | UserScroll y =>
      Some {| currentPage := currentPage s; isMenuOpen := isMenuOpen s;
              scrollY := y |}
  end.

Fixpoint run (s : State) (es : list Event) : option State :=
  match es with
  | [] => Some s
  | e :: es' =>
      match step s e with
      | Some s' => run s' es'
      | None => None
      end
  end.

End Navigation.

(** * Properties *)

Module InViewFacts.
Import InView.

Lemma observe_app o s es1 es2 :
  observe o s (es1 ++ es2) = observe o (observe o s es1) es2.
Proof. unfold observe. apply fold_left_app. Qed.

(** The only branch that clears [inView] is guarded by
    [options.once === false]. *)
Lemma callback_keeps_inView o s entry :
  once_is_false o = false -> inView s = true ->
  inView (callback o s entry) = true.
Proof.
  intros Ho Hs. unfold callback.
  destruct (isIntersecting entry && negb (hasAnimated s)); [reflexivity|].
  rewrite Ho, andb_false_r. exact Hs.
Qed.

Lemma observe_keeps_inView o es :
  once_is_false o = false ->
  forall s, inView s = true -> inView (observe o s es) = true.
Proof.
  intros Ho. induction es as [|e es IH]; intros s Hs; [exact Hs|].
  cbn. apply IH. now apply callback_keeps_inView.
Qed.

(** [hasAnimated] is never cleared. *)
Lemma callback_hasAnimated o s entry :
  hasAnimated s = true -> hasAnimated (callback o s entry) = true.
Proof.
  intros Hs. unfold callback. rewrite Hs, andb_false_r.
  destruct (negb (isIntersecting entry) && once_is_false o);
    [reflexivity | exact Hs].
Qed.

Lemma observe_hasAnimated o es :
  forall s, hasAnimated s = true -> hasAnimated (observe o s es) = true.
Proof.
  induction es as [|e es IH]; intros s Hs; [exact Hs|].
  cbn. apply IH. now apply callback_hasAnimated.
Qed.

(** Once [hasAnimated] is set, no entry sets [inView] again: a
    tracker that was switched off stays off. *)
Lemma observe_stays_off o es :
  forall s, hasAnimated s = true -> inView s = false ->
  inView (observe o s es) = false.
Proof.
  induction es as [|e es IH]; intros s Ha Hv; [exact Hv|].
  cbn. apply IH; [now apply callback_hasAnimated|].
  unfold callback. rewrite Ha, andb_false_r.
  destruct (negb (isIntersecting e) && once_is_false o);
    [reflexivity | exact Hv].
Qed.

(** C1. With [once: false] the signal does not follow the most
    recent entry: after the element entered, left and entered again,
    the last entry is intersecting and [inView] is false; it stays
    false whatever is observed later. *)
Theorem once_false_misses_reentry :
  let o := MotionDiv_options false in
  once o = Some false /\
  inView (observe o initial [enters]) = true /\
  inView (observe o initial [enters; leaves]) = false /\
  isIntersecting enters = true /\
  inView (observe o initial [enters; leaves; enters]) = false /\
  (forall later,
     inView (observe o initial ([enters; leaves] ++ later)) = false).
Proof.
  cbn zeta. repeat split.
  intros later. rewrite observe_app.
  now apply observe_stays_off.
Qed.

(** C2. With [once: true], once [inView] is true after some
    observations it is true after any further observations. *)
Theorem latch_once_true (o : Options) (before after : list Entry) :
  once o = Some true ->
  inView (observe o initial before) = true ->
  inView (observe o initial (before ++ after)) = true.
Proof.
  intros Ho Hv. rewrite observe_app.
  apply observe_keeps_inView; [|exact Hv].
  unfold once_is_false. now rewrite Ho.
Qed.

Lemma latch_once_true_witness :
  inView (observe SectionTitle_options initial
            ([leaves; enters] ++ [leaves; leaves; enters; leaves])) = true.
Proof.
  apply (latch_once_true SectionTitle_options [leaves; enters]);
    reflexivity.
Defined.

(** C10. An options object without [once] (as in [HomePage] and
    [AnimatedSection]) never passes the test [options.once === false],
    so no entry clears [inView]: once true, it stays true. *)
Theorem omitted_once_latches (o : Options) (before after : list Entry) :
  once o = None ->
  once_is_false o = false /\
  (forall s entry, inView s = true -> inView (callback o s entry) = true) /\
  (inView (observe o initial before) = true ->
   inView (observe o initial (before ++ after)) = true).
Proof.
  intros Ho.
  assert (Hf : once_is_false o = false) by (unfold once_is_false; now rewrite Ho).
  split; [exact Hf|]. split.
  - intros s entry. now apply callback_keeps_inView.
  - intros Hv. rewrite observe_app. now apply observe_keeps_inView.
Qed.

Lemma omitted_once_latches_witness :
  once HomePage_options = None /\
  once AnimatedSection_options = None /\
  inView (observe HomePage_options initial ([enters] ++ [leaves; leaves])) = true /\
  inView (observe AnimatedSection_options initial ([leaves; enters] ++ [leaves])) = true.
Proof.
  split; [reflexivity|]. split; [reflexivity|]. split.
  - apply (omitted_once_latches HomePage_options [enters] [leaves; leaves]);
      reflexivity.
  - apply (omitted_once_latches AnimatedSection_options [leaves; enters] [leaves]);
      reflexivity.
Defined.

End InViewFacts.

Module CarouselFacts.
Import Carousel.

Section Slider.

Variable images : list string.
Local Abbreviation N := (itemCount images).

Lemma next_index_mod i :
  0 < N -> 0 <= i < N ->
  next_index images i = (i + 1) mod N /\ 0 <= next_index images i < N.
Proof.
  intros HN Hi. unfold next_index.
  rewrite Z.rem_mod_nonneg by lia.
  split; [reflexivity | apply Z.mod_pos_bound; lia].
Qed.

Lemma prev_index_mod i :
  0 < N -> 0 <= i < N ->
  prev_index images i = (i - 1 + N) mod N /\ 0 <= prev_index images i < N.
Proof.
  intros HN Hi. unfold prev_index.
  rewrite Z.rem_mod_nonneg by lia.
  split; [reflexivity | apply Z.mod_pos_bound; lia].
Qed.

Lemma resetTimer_index s :
  currentImageIndex (resetTimer s) = currentImageIndex s.
Proof.
  unfold resetTimer, startAutoSlide, setInterval, clearInterval.
  destruct (truthy (intervalRef s)); [|reflexivity].
  destruct (intervalRef s); reflexivity.
Qed.

Lemma step_in_bounds s e s' :
  0 < N -> in_bounds images s -> step images s e = Some s' -> in_bounds images s'.
Proof.
  unfold in_bounds. intros HN Hs Hstep.
  destruct e as [ms|h| |]; unfold step in Hstep.
  - destruct (0 <=? ms); [|discriminate].
    injection Hstep as <-. exact Hs.
  - destruct (timers s !! h) as [due|]; [|discriminate].
    destruct (due <=? now s); [|discriminate].
    injection Hstep as <-. cbn. now apply next_index_mod.
  - injection Hstep as <-. unfold handlePrevClick.
    rewrite resetTimer_index. cbn. now apply prev_index_mod.
  - injection Hstep as <-. unfold handleNextClick.
    rewrite resetTimer_index. cbn. now apply next_index_mod.
Qed.

Lemma run_in_bounds es :
  0 < N -> forall s s',
  in_bounds images s -> run images s es = Some s' -> in_bounds images s'.
Proof.
  intros HN. induction es as [|e es IH]; intros s s' Hs Hrun; cbn in Hrun.
  - inversion Hrun; subst; exact Hs.
  - destruct (step images s e) as [s1|] eqn:Hstep; [|discriminate].
    eapply IH; [|exact Hrun]. eapply step_in_bounds; eauto.
Qed.

Lemma mount_in_bounds : 0 < N -> in_bounds images mount.
Proof. unfold in_bounds. cbn. lia. Qed.

Lemma run_app s es1 es2 :
  run images s (es1 ++ es2) =
  match run images s es1 with
  | Some s1 => run images s1 es2
  | None => None
  end.
Proof.
  revert s. induction es1 as [|e es1 IH]; intros s; cbn; [reflexivity|].
  destruct (step images s e); [apply IH | reflexivity].
Qed.

(** [resetTimer] on an armed slider: the old interval is removed and
    a new one runs a full period from now. *)
Lemma resetTimer_armed quiet s :
  armed quiet s ->
  exists h,
    intervalRef (resetTimer s) = Some h /\ intervalRef s <> Some h /\
    0 < h < nextHandle (resetTimer s) /\
    timers (resetTimer s) = {[ h := now s + period ]} /\
    now (resetTimer s) = now s.
Proof.
  intros (h & due & Href & Hh & Htim & _).
  exists (nextHandle s).
  unfold resetTimer. rewrite Href. cbn.
  replace (negb (h =? 0)) with true
    by (symmetry; apply negb_true_iff, Z.eqb_neq; lia).
  cbn. rewrite Htim, delete_singleton_eq, insert_empty.
  repeat split; try lia.
  intros Heq. injection Heq as Heq. lia.
Qed.

Lemma mount_armed : armed 0 mount.
Proof.
  exists 1, period. cbn. rewrite insert_empty. repeat split; lia.
Qed.

Lemma click_armed quiet s :
  armed quiet s ->
  armed 0 (handlePrevClick images s) /\ armed 0 (handleNextClick images s).
Proof.
  intros Hs. split; unfold handlePrevClick, handleNextClick.
  - destruct (resetTimer_armed quiet (with_index (prev_index images (currentImageIndex s)) s))
      as (h & Href & _ & Hh & Htim & Hnow); [exact Hs|].
    exists h, (now s + period). rewrite Hnow. cbn in *. repeat split; auto; lia.
  - destruct (resetTimer_armed quiet (with_index (next_index images (currentImageIndex s)) s))
      as (h & Href & _ & Hh & Htim & Hnow); [exact Hs|].
    exists h, (now s + period). rewrite Hnow. cbn in *. repeat split; auto; lia.
Qed.

(** An interval that runs was due. *)
Lemma fires_after_period quiet s h s' :
  armed quiet s -> step images s (IntervalFires h) = Some s' ->
  period <= quiet.
Proof.
  intros (h0 & due & _ & _ & Htim & Hdue) Hstep. unfold step in Hstep.
  rewrite Htim in Hstep.
  destruct ({[h0 := due]} !! h) as [due'|] eqn:Hlook; [|discriminate].
  apply lookup_singleton_Some in Hlook as [-> ->].
  destruct (due' <=? now s) eqn:Hle; [|discriminate].
  apply Z.leb_le in Hle. lia.
Qed.

Lemma step_armed quiet s e s' :
  armed quiet s -> step images s e = Some s' ->
  armed (quiet_after quiet e) s'.
Proof.
  intros Hs Hstep. destruct e as [ms|h| |]; unfold step in Hstep.
  - destruct (0 <=? ms) eqn:Hms; [|discriminate]. injection Hstep as <-.
    destruct Hs as (h0 & due & Href & Hh & Htim & Hdue).
    exists h0, due. cbn. repeat split; auto; lia.
  - destruct Hs as (h0 & due & Href & Hh & Htim & Hdue).
    rewrite Htim in Hstep.
    destruct ({[h0 := due]} !! h) as [due'|] eqn:Hlook; [|discriminate].
    apply lookup_singleton_Some in Hlook as [-> ->].
    destruct (due' <=? now s); [|discriminate]. injection Hstep as <-.
    exists h, (now s + period). cbn. rewrite insert_singleton_eq.
    repeat split; auto; lia.
  - injection Hstep as <-. now apply (click_armed quiet).
  - injection Hstep as <-. now apply (click_armed quiet).
Qed.

Lemma run_armed es :
  forall quiet s s',
  armed quiet s -> run images s es = Some s' ->
  armed (fold_left quiet_after es quiet) s'.
Proof.
  induction es as [|e es IH]; intros quiet s s' Hs Hrun; cbn in Hrun |- *.
  - injection Hrun as <-. exact Hs.
  - destruct (step images s e) as [s1|] eqn:Hstep; [|discriminate].
    eapply IH; [|exact Hrun]. eapply step_armed; eauto.
Qed.

Lemma since_action_fold es : since_action es = fold_left quiet_after es 0.
Proof. reflexivity. Qed.

(** The cleanup of the effect leaves no interval behind. *)
Lemma unmount_clears es s :
  run images mount es = Some s -> timers (unmount s) = ∅.
Proof.
  intros Hrun.
  destruct (run_armed es 0 mount s mount_armed Hrun)
    as (h & due & Href & _ & Htim & _).
  unfold unmount. rewrite Href. cbn. rewrite Htim.
  apply delete_singleton_eq.
Qed.

(** The clock runs at least as long as the quiet time. *)
Lemma run_clock es :
  forall quiet s s',
  0 <= quiet -> run images s es = Some s' ->
  0 <= fold_left quiet_after es quiet /\
  now s + fold_left quiet_after es quiet <= now s' + quiet.
Proof.
  induction es as [|e es IH]; intros quiet s s' Hq Hrun; cbn in Hrun |- *.
  - injection Hrun as <-. lia.
  - destruct (step images s e) as [s1|] eqn:Hstep; [|discriminate].
    assert (Hs1 : 0 <= quiet_after quiet e /\
                  now s + quiet_after quiet e <= now s1 + quiet).
    { destruct e as [ms|h| |]; unfold step in Hstep; cbn.
      - destruct (0 <=? ms) eqn:Hms; [|discriminate].
        injection Hstep as <-. apply Z.leb_le in Hms. cbn. lia.
      - destruct (timers s !! h) as [due|]; [|discriminate].
        destruct (due <=? now s); [|discriminate].
        injection Hstep as <-. cbn. lia.
      - injection Hstep as <-. unfold handlePrevClick, resetTimer.
        destruct (truthy _); [destruct (intervalRef _)|]; cbn; lia.
      - injection Hstep as <-. unfold handleNextClick, resetTimer.
        destruct (truthy _); [destruct (intervalRef _)|]; cbn; lia. }
    destruct (IH _ _ _ (proj1 Hs1) Hrun) as [H1 H2]. lia.
Qed.

Lemma run_nexts k :
  0 < N ->
  exists s, run images mount (repeat NextClick k) = Some s /\
            currentImageIndex s = Z.of_nat k mod N.
Proof.
  intros HN. induction k as [|k (s & Hrun & Hidx)].
  - exists mount. split; [reflexivity|]. cbn. now rewrite Z.mod_0_l by lia.
  - exists (handleNextClick images s). split.
    + cbn [repeat]. rewrite repeat_cons, run_app, Hrun. reflexivity.
    + unfold handleNextClick. rewrite resetTimer_index. cbn.
      assert (Hb : in_bounds images s)
        by (eapply run_in_bounds; eauto using mount_in_bounds).
      destruct (next_index_mod (currentImageIndex s) HN Hb) as [-> _].
      rewrite Hidx, Z.add_mod_idemp_l by lia. f_equal. lia.
Qed.

End Slider.

(** C3. With N > 0 items, in every state the slider can reach a
    manual next sets the index to (index + 1) mod N and a manual
    previous to (index - 1 + N) mod N; k nexts in a row from the mount
    lead to k mod N, and one previous from the mount to N - 1. *)
Theorem manual_next_prev (images : list string) :
  0 < itemCount images ->
  (forall es s, run images mount es = Some s ->
     currentImageIndex (handleNextClick images s)
       = (currentImageIndex s + 1) mod itemCount images /\
     currentImageIndex (handlePrevClick images s)
       = (currentImageIndex s - 1 + itemCount images) mod itemCount images) /\
  (forall k : nat, exists s,
     run images mount (repeat NextClick k) = Some s /\
     currentImageIndex s = Z.of_nat k mod itemCount images) /\
  (exists s, run images mount [PrevClick] = Some s /\
             currentImageIndex s = itemCount images - 1).
Proof.
  intros HN. split; [|split].
  - intros es s Hrun.
    assert (Hb : in_bounds images s)
      by (eapply run_in_bounds; eauto using mount_in_bounds).
    unfold handleNextClick, handlePrevClick. rewrite !resetTimer_index. cbn.
    split; [now apply next_index_mod | now apply prev_index_mod].
  - intros k. now apply run_nexts.
  - eexists. split; [reflexivity|].
    unfold handlePrevClick. rewrite resetTimer_index. cbn.
    destruct (prev_index_mod images 0 HN) as [-> _]; [lia|].
    replace (0 - 1 + itemCount images) with (itemCount images - 1) by lia.
    apply Z.mod_small. lia.
Qed.

Lemma manual_next_prev_witness :
  0 < itemCount HomePage_images /\
  (exists s, run HomePage_images mount (repeat NextClick 8) = Some s /\
             currentImageIndex s = 2) /\
  (exists s, run HomePage_images mount [PrevClick] = Some s /\
             currentImageIndex s = 5).
Proof.
  assert (H : 0 < itemCount HomePage_images) by reflexivity.
  split; [exact H|].
  destruct (manual_next_prev HomePage_images H) as (_ & Hk & Hp).
  split; [exact (Hk 8%nat) | exact Hp].
Defined.

(** C8. With N > 0 items the index starts at 0, every operation (the
    automatic advance, manual next, manual previous, and time passing)
    keeps it in [0, N), and so it is in [0, N) in every reachable
    state. *)
Theorem index_always_in_bounds (images : list string) :
  0 < itemCount images ->
  currentImageIndex mount = 0 /\
  (forall s e s',
     0 <= currentImageIndex s < itemCount images ->
     step images s e = Some s' ->
     0 <= currentImageIndex s' < itemCount images) /\
  (forall es s,
     run images mount es = Some s ->
     0 <= currentImageIndex s < itemCount images).
Proof.
  intros HN. split; [reflexivity|]. split.
  - intros s e s' Hs Hstep. exact (step_in_bounds images s e s' HN Hs Hstep).
  - intros es s Hrun.
    exact (run_in_bounds images es HN mount s (mount_in_bounds images HN) Hrun).
Qed.

Lemma index_always_in_bounds_witness :
  0 < itemCount HomePage_images /\
  0 <= currentImageIndex (handlePrevClick HomePage_images mount) < 6.
Proof.
  assert (H : 0 < itemCount HomePage_images) by reflexivity.
  split; [exact H|].
  destruct (index_always_in_bounds HomePage_images H) as (_ & _ & Hr).
  exact (Hr [PrevClick] _ eq_refl).
Defined.

(** C4. In every reachable state a manual next or previous removes
    the interval that was pending and leaves exactly one interval,
    due a full period (5000 ms) after the click; an automatic advance
    can only run when at least a period has passed since the most
    recent action of any kind (click, automatic advance, or the
    mount).  After a manual previous at 1000 ms, whatever happens
    next, no automatic advance runs before 6000 ms. *)
Theorem manual_action_restarts_interval (images : list string) :
  (forall es s, run images mount es = Some s ->
     (forall click, is_click click ->
        exists s1 h,
          step images s click = Some s1 /\
          intervalRef s1 = Some h /\ intervalRef s <> Some h /\
          timers s1 = {[ h := now s + period ]}) /\
     (forall h s', step images s (IntervalFires h) = Some s' ->
        period <= since_action es)) /\
  (forall rest h s s',
     run images mount ([Elapse 1000; PrevClick] ++ rest) = Some s ->
     step images s (IntervalFires h) = Some s' ->
     6000 <= now s).
Proof.
  split.
  - intros es s Hrun.
    pose proof (run_armed images es 0 mount s mount_armed Hrun) as Harmed.
    split.
    + intros click [-> | ->]; cbn [step];
        unfold handlePrevClick, handleNextClick.
      * destruct (resetTimer_armed _
                    (with_index (prev_index images (currentImageIndex s)) s)
                    Harmed) as (h & Href & Hold & _ & Htim & _).
        eexists _, h. split; [reflexivity|]. auto.
      * destruct (resetTimer_armed _
                    (with_index (next_index images (currentImageIndex s)) s)
                    Harmed) as (h & Href & Hold & _ & Htim & _).
        eexists _, h. split; [reflexivity|]. auto.
    + intros h s' Hstep. rewrite since_action_fold.
      eapply fires_after_period; eauto.
  - intros rest h s s' Hrun Hstep.
    rewrite run_app in Hrun.
    destruct (run images mount [Elapse 1000; PrevClick]) as [s1|] eqn:Hpre;
      [|discriminate].
    pose proof (run_armed images _ 0 mount s1 mount_armed Hpre) as Harmed.
    cbn [fold_left quiet_after] in Harmed.
    pose proof (run_armed images rest 0 s1 s Harmed Hrun) as Hs.
    pose proof (fires_after_period images _ s h s' Hs Hstep) as Hquiet.
    destruct (run_clock images rest 0 s1 s (Z.le_refl 0) Hrun) as [_ Hclock].
    assert (Hnow : now s1 = 1000).
    { cbn in Hpre. injection Hpre as <-.
      unfold handlePrevClick, resetTimer. cbn. reflexivity. }
    unfold period in *. lia.
Qed.

Lemma manual_action_restarts_interval_witness :
  period <= since_action [Elapse 1000; PrevClick; Elapse 2000; Elapse 3000] /\
  (exists s, run HomePage_images mount
               [Elapse 1000; PrevClick; NextClick; Elapse 7000] = Some s /\
             6000 <= now s).
Proof.
  destruct (manual_action_restarts_interval HomePage_images) as [Hgen Hscen].
  split.
  - destruct (Hgen [Elapse 1000; PrevClick; Elapse 2000; Elapse 3000] _ eq_refl)
      as [_ Hfire].
    exact (Hfire 2 _ eq_refl).
  - eexists. split; [reflexivity|].
    exact (Hscen [NextClick; Elapse 7000] 3 _ _ eq_refl eq_refl).
Defined.

End CarouselFacts.

Module FrameAnimationFacts.
Import FrameAnimation.
Local Open Scope Q_scope.

(** *** The formula *)

Lemma ratio_of_lt_1 d p : 0 < d -> ratio_of d p < 1 -> p < d.
Proof.
  intros Hd H. unfold ratio_of in H.
  apply Q.min_lt_iff in H as [H | H]; [|now apply Qlt_irrefl in H].
  destruct (Qlt_le_dec p d) as [Hlt | Hge]; [exact Hlt|].
  exfalso. apply (Qlt_not_le _ _ H).
  apply Qle_shift_div_l; [exact Hd|]. now rewrite Qmult_1_l.
Qed.

Lemma ratio_of_full d p : 0 < d -> d <= p -> ratio_of d p == 1.
Proof.
  intros Hd H. unfold ratio_of. apply Q.min_r.
  apply Qle_shift_div_l; [exact Hd|]. now rewrite Qmult_1_l.
Qed.

Lemma ratio_of_ge_1 d p : 0 < d -> 1 <= ratio_of d p -> d <= p.
Proof.
  intros Hd H. unfold ratio_of in H. apply Q.min_glb_l in H.
  destruct (Qlt_le_dec p d) as [Hlt | Hge]; [|exact Hge].
  exfalso. apply (Qlt_not_le (p / d) 1); [|exact H].
  apply Qlt_shift_div_r; [exact Hd|]. now rewrite Qmult_1_l.
Qed.

Lemma ratio_of_mono d p1 p2 :
  0 < d -> p1 <= p2 -> ratio_of d p1 <= ratio_of d p2.
Proof.
  intros Hd H. unfold ratio_of. apply Q.min_le_compat_r.
  unfold Qdiv. apply Qmult_le_compat_r; [exact H|].
  apply Qlt_le_weak, Qinv_lt_0_compat, Hd.
Qed.

Lemma ratio_of_start d t : 0 < d -> ratio_of d (t - t) == 0.
Proof.
  intros Hd. unfold ratio_of.
  assert (H0 : (t - t) / d == 0).
  { unfold Qdiv. ring. }
  rewrite (Q.min_l ((t - t) / d) 1); [exact H0|].
  rewrite H0. discriminate.
Qed.

Lemma value_at_start e d t : 0 < d -> value_at e d (t - t) = 0%Z.
Proof.
  intros Hd. unfold value_at.
  rewrite (Qfloor_comp _ 0); [reflexivity|].
  rewrite (ratio_of_start d t Hd). apply Qmult_0_l.
Qed.

Lemma value_at_full e d p : 0 < d -> d <= p -> value_at e d p = Qfloor e.
Proof.
  intros Hd H. unfold value_at. apply Qfloor_comp.
  rewrite (ratio_of_full d p Hd H). apply Qmult_1_l.
Qed.

Lemma value_at_mono e d p1 p2 :
  0 <= e -> 0 < d -> p1 <= p2 ->
  (value_at e d p1 <= value_at e d p2)%Z.
Proof.
  intros He Hd H. unfold value_at. apply Qfloor_resp_le.
  apply Qmult_le_compat_r; [|exact He]. now apply ratio_of_mono.
Qed.

Lemma Qfloor_integer e n : e == inject_Z n -> Qfloor e = n.
Proof. intros H. rewrite (Qfloor_comp _ _ H). apply Qfloor_Z. Qed.

(** *** One refresh *)

Lemma frame_idle t s : callbacks s = [] -> frame t s = s.
Proof. destruct s; cbn. intros ->. reflexivity. Qed.

Lemma frame_single t s h a :
  callbacks s = [(h, a)] -> frame t s = animate a t (set_callbacks [] s).
Proof. unfold frame. intros ->. reflexivity. Qed.

Lemma animate_spec a t s :
  let s' := animate a t s in
  startRef s' = Some (start_for t s) /\
  value s' = value_at (a_endValue a) (a_duration a) (t - start_for t s) /\
  callbacks s' =
    (if Qlt_le_dec (ratio_of (a_duration a) (t - start_for t s)) 1
     then callbacks s ++ [(nextHandle s, a)] else callbacks s).
Proof.
  cbn zeta. unfold animate.
  destruct (Qlt_le_dec _ 1); cbn; auto.
Qed.

Lemma frame_single_spec t s h a :
  callbacks s = [(h, a)] ->
  let s' := frame t s in
  startRef s' = Some (start_for t s) /\
  value s' = value_at (a_endValue a) (a_duration a) (t - start_for t s) /\
  callbacks s' =
    (if Qlt_le_dec (ratio_of (a_duration a) (t - start_for t s)) 1
     then [(nextHandle s, a)] else []).
Proof.
  intros Hcb. cbn zeta. rewrite (frame_single t s h a Hcb).
  exact (animate_spec a t (set_callbacks [] s)).
Qed.

Lemma frames_idle ts s : callbacks s = [] -> frames s ts = s.
Proof.
  intros Hcb. unfold frames, run.
  induction ts as [|t ts IH]; cbn; [reflexivity|].
  now rewrite (frame_idle t s Hcb).
Qed.

Lemma frames_cons t ts s : frames s (t :: ts) = frames (frame t s) ts.
Proof. reflexivity. Qed.


Lemma value_at_le_floor e d p :
  0 <= e -> (value_at e d p <= Qfloor e)%Z.
Proof.
  intros He. unfold value_at. apply Qfloor_resp_le.
  rewrite <- (Qmult_1_l e) at 2.
  apply Qmult_le_compat_r; [|exact He]. unfold ratio_of. apply Q.le_min_r.
Qed.

Section OneLoop.

Variables e d : Q.
Hypothesis d_pos : 0 < d.

(** A running loop that sees a refresh at or after [t0 + d] ends
    at [Math.floor(e)]; an ended loop stays ended. *)
Lemma latched_at_frame t0 t s :
  ~ t0 == 0 -> latched_at e d t0 s ->
  latched_at e d t0 (frame t s) /\
  (t0 + d <= t -> callbacks (frame t s) = [] /\ value (frame t s) = Qfloor e).
Proof.
  intros Ht0 [(h & Hcb & Hstart) | (Hcb & Hval)].
  - destruct (frame_single_spec t s h (loop e d) Hcb) as (Hs & Hv & Hc).
    assert (Hst : start_for t s = t0).
    { unfold start_for. rewrite Hstart. cbn.
      destruct (Qeq_bool t0 0) eqn:Hz; [|reflexivity].
      now apply Qeq_bool_iff in Hz. }
    rewrite Hst in Hs, Hv, Hc. cbn [a_endValue a_duration loop] in Hv, Hc.
    destruct (Qlt_le_dec (ratio_of d (t - t0)) 1) as [Hlt | Hge].
    + split; [left; eauto|].
      intros Hfull. apply (ratio_of_lt_1 d _ d_pos) in Hlt. lra.
    + apply (ratio_of_ge_1 d _ d_pos) in Hge.
      rewrite (value_at_full e d _ d_pos Hge) in Hv.
      split; [right|]; auto.
  - rewrite (frame_idle t s Hcb). split; [right|]; auto.
Qed.

Lemma latched_at_frames t0 ts :
  ~ t0 == 0 -> forall s,
  latched_at e d t0 s -> Exists (fun t => t0 + d <= t) ts ->
  value (frames s ts) = Qfloor e.
Proof.
  intros Ht0. induction ts as [|t ts IH]; intros s Hs Hex.
  - inversion Hex.
  - rewrite frames_cons.
    destruct (latched_at_frame t0 t s Ht0 Hs) as [Hs' Hfull].
    inversion Hex as [? ? Hnow | ? ? Hlater]; subst.
    + destruct (Hfull Hnow) as [Hcb Hv]. now rewrite frames_idle.
    + now apply IH.
Qed.

(** The state after the trigger is set in an idle state. *)
Lemma render_from_idle s :
  idle s ->
  render {| endValue := e; duration := d; trigger := true |} s =
  {| value := 0; startRef := None;
     deps := Some {| endValue := e; duration := d; trigger := true |};
     cleanup := Some (nextHandle s);
     callbacks := [(nextHandle s, loop e d)];
     nextHandle := nextHandle s + 1 |}.
Proof.
  destruct s as [v st dp cl cbs nh]. unfold idle. cbn.
  intros (-> & -> & -> & -> & [-> | (q & -> & Hq)]); unfold render; cbn;
    [reflexivity|].
  unfold same_deps. rewrite Hq. reflexivity.
Qed.

(** The first refresh latches its timestamp and reports 0. *)
Lemma first_frame s t0 :
  idle s ->
  let s1 := frame t0 (render {| endValue := e; duration := d; trigger := true |} s) in
  value s1 = 0%Z /\ startRef s1 = Some t0 /\
  callbacks s1 = [((nextHandle s + 1)%Z, loop e d)].
Proof.
  intros Hs. rewrite (render_from_idle s Hs).
  match goal with |- let s1 := frame _ ?s0 in _ =>
    destruct (frame_single_spec t0 s0 (nextHandle s) (loop e d) eq_refl)
      as (Hst & Hv & Hc)
  end.
  cbn zeta. unfold start_for in *.
  cbn [startRef unset a_endValue a_duration loop nextHandle] in Hst, Hv, Hc.
  rewrite (value_at_start e d t0 d_pos) in Hv.
  destruct (Qlt_le_dec (ratio_of d (t0 - t0)) 1) as [Hlt | Hge].
  - auto.
  - rewrite (ratio_of_start d t0 d_pos) in Hge. lra.
Qed.



Hypothesis e_nonneg : 0 <= e.

Lemma one_loop_frame last t s :
  one_loop e d last s -> last <= t ->
  one_loop e d t (frame t s) /\
  (value s <= value (frame t s))%Z /\
  exists start, startRef (frame t s) = Some start /\
                value (frame t s) = value_at e d (t - start).
Proof.
  unfold one_loop at 1. intros Hs Hle.
  destruct (callbacks s) as [|[h a] [|c l]] eqn:Hcb; [| |contradiction].
  - destruct Hs as (start & Hstart & Hval & Hend).
    rewrite (frame_idle t s Hcb). split; [|split].
    + unfold one_loop. rewrite Hcb. exists start. repeat split; auto. lra.
    + lia.
    + exists start. split; [exact Hstart|].
      rewrite value_at_full; [exact Hval | exact d_pos | lra].
  - destruct Hs as [-> Hs].
    destruct (frame_single_spec t s h (loop e d) Hcb) as (Hst & Hv & Hc).
    cbn [a_endValue a_duration loop] in Hv, Hc.
    unfold start_for in *.
    destruct (unset (startRef s)) eqn:Hun.
    + rewrite (value_at_start e d t d_pos) in Hv.
      destruct (Qlt_le_dec (ratio_of d (t - t)) 1) as [Hlt | Hge].
      * split; [|split].
        -- unfold one_loop. rewrite Hc, Hst. split; [reflexivity|].
           destruct (unset (Some t)); [exact Hv|].
           exists t. split; [reflexivity|].
           now rewrite (value_at_start e d t d_pos).
        -- lia.
        -- exists t. split; [exact Hst|].
           now rewrite (value_at_start e d t d_pos).
      * rewrite (ratio_of_start d t d_pos) in Hge. lra.
    + destruct Hs as (start & Hstart & Hval).
      rewrite Hstart in Hst, Hv, Hc, Hun. cbv beta iota in Hst, Hv, Hc.
      assert (Hmono : (value s <= value (frame t s))%Z).
      { rewrite Hval, Hv. apply value_at_mono; auto. lra. }
      split; [|split]; [|exact Hmono|eauto].
      unfold one_loop. rewrite Hc.
      destruct (Qlt_le_dec (ratio_of d (t - start)) 1) as [Hlt | Hge].
      * split; [reflexivity|]. rewrite Hst, Hun. eauto.
      * apply (ratio_of_ge_1 d _ d_pos) in Hge.
        exists start. split; [exact Hst|]. split; [|lra].
        rewrite Hv. now apply value_at_full.
Qed.

Lemma one_loop_states ts :
  forall last s,
  one_loop e d last s -> Sorted Qle (last :: ts) ->
  Sorted Z.le (value s :: reports s ts) /\
  Forall2 (fun t s' => exists start,
             startRef s' = Some start /\
             value s' = value_at e d (t - start))
          ts (states s ts).
Proof.
  induction ts as [|t ts IH]; intros last s Hs Hsorted.
  - split; repeat constructor.
  - apply Sorted_inv in Hsorted as [Hts Hhd].
    apply HdRel_inv in Hhd.
    destruct (one_loop_frame last t s Hs Hhd) as (Hs' & Hle & Hform).
    destruct (IH t (frame t s) Hs' Hts) as [Hmono Hall].
    split.
    + cbn. constructor; [exact Hmono|]. constructor. exact Hle.
    + cbn. constructor; assumption.
Qed.

End OneLoop.

(** C5, as stated, fails for a target that is not a whole number: with
    target 7/2 and duration 2000, refreshes at 16 and 2016 end the run
    (no callback is left) and the value is 3. *)
Lemma final_value_below_fractional_target :
  let p := {| endValue := 7 # 2; duration := 2000; trigger := true |} in
  let s := run fresh [Render p; Frame 16; Frame 2016] in
  callbacks s = [] /\ value s = 3%Z /\ ~ inject_Z (value s) == endValue p.
Proof.
  cbn zeta. split; [reflexivity|]. split; [reflexivity|].
  intros H. vm_compute in H. discriminate H.
Qed.

(** C5, amended. Let the trigger be set in an idle state (at the
    mount, or after a render without the trigger with nothing
    scheduled), with a positive duration, and let the first refresh
    have a non-zero timestamp t0.  The value is 0 when the trigger is
    set and after the first callback; once a refresh arrives at or
    after t0 + duration the value is floor(target) for good, which is
    the target when that is a whole number.  With target 350 and
    duration 2000 the value is 0 at t0 and 350 at t0 + 2000. *)
Theorem first_run_ends_at_floor (e d t0 : Q) (ts : list Q) (s : State) :
  0 < d -> ~ t0 == 0 -> idle s ->
  let s0 := render {| endValue := e; duration := d; trigger := true |} s in
  value s0 = 0%Z /\
  value (frame t0 s0) = 0%Z /\
  (Exists (fun t => t0 + d <= t) ts ->
   value (frames (frame t0 s0) ts) = Qfloor e /\
   forall n, e == inject_Z n -> value (frames (frame t0 s0) ts) = n) /\
  value (run fresh [Render (AnimatedCounter_props 350 true); Frame t0]) = 0%Z /\
  value (run fresh [Render (AnimatedCounter_props 350 true);
                    Frame t0; Frame (t0 + 2000)]) = 350%Z.
Proof.
  intros Hd Ht0 Hs. cbn zeta.
  assert (Hrun : forall e' d' ts' s', 0 < d' -> idle s' ->
            Exists (fun t => t0 + d' <= t) ts' ->
            value (frames (frame t0 (render {| endValue := e'; duration := d';
                                               trigger := true |} s')) ts')
            = Qfloor e').
  { intros e' d' ts' s' Hd' Hs' Hex.
    destruct (first_frame e' d' Hd' s' t0 Hs') as (_ & Hstart & Hcb).
    apply (latched_at_frames e' d' Hd' t0 ts' Ht0); [|exact Hex].
    left. eauto. }
  assert (Hfresh : idle fresh) by (unfold idle; cbn; auto 6).
  split; [now rewrite (render_from_idle e d s Hs)|].
  split; [exact (proj1 (first_frame e d Hd s t0 Hs))|].
  split; [|split].
  - intros Hex. rewrite (Hrun e d ts s Hd Hs Hex).
    split; [reflexivity|]. intros n Hn. now apply Qfloor_integer.
  - exact (proj1 (first_frame (inject_Z 350) 2000 eq_refl fresh t0 Hfresh)).
  - apply (Hrun (inject_Z 350) 2000 [t0 + 2000] fresh eq_refl Hfresh).
    constructor. apply Qle_refl.
Qed.

Lemma first_run_ends_at_floor_witness :
  let s := render (AnimatedCounter_props 180 false) fresh in
  let s0 := render {| endValue := inject_Z 180; duration := 2000;
                      trigger := true |} s in
  value (frames (frame 100 s0) [1100; 2100; 2117]) = 180%Z.
Proof.
  cbv zeta.
  assert (Hd : 0 < 2000) by reflexivity.
  assert (Ht0 : ~ 100 == 0) by (intros H; discriminate H).
  assert (Hs : idle (render (AnimatedCounter_props 180 false) fresh)).
  { unfold idle. cbn. repeat split. right. eexists. split; reflexivity. }
  assert (Hex : Exists (fun t => 100 + 2000 <= t) [1100; 2100; 2117]).
  { apply Exists_cons_tl, Exists_cons_hd. intros H; discriminate H. }
  destruct (first_run_ends_at_floor (inject_Z 180) 2000 100
              [1100; 2100; 2117] _ Hd Ht0 Hs) as (_ & _ & Hend & _).
  exact (proj2 (Hend Hex) 180%Z (Qeq_refl _)).
Defined.

(** C6. The cleanup cancels the one request the effect made itself.
    After the first callback has run, the pending request is one the
    callback made: the unmount, or a render with the trigger cleared,
    leaves it in the host's list, and the next refreshes write the
    value (175 at half of the duration). *)
Theorem cleanup_misses_rescheduled_callback :
  let p := AnimatedCounter_props 350 true in
  let idle := AnimatedCounter_props 350 false in
  callbacks (run fresh [Render p; Unmount]) = [] /\
  callbacks (run fresh [Render p; Frame 100; Unmount])
    = [(2%Z, loop 350 2000)] /\
  value (run fresh [Render p; Frame 100; Unmount]) = 0%Z /\
  value (run fresh [Render p; Frame 100; Unmount; Frame 1100]) = 175%Z /\
  callbacks (run fresh [Render p; Frame 100; Render idle])
    = [(2%Z, loop 350 2000)] /\
  value (run fresh [Render p; Frame 100; Render idle]) = 0%Z /\
  value (run fresh [Render p; Frame 100; Render idle;
                    Frame 200; Frame 1200]) = 175%Z.
Proof. cbn zeta. repeat split. Qed.




(** What a render with the trigger cleared does by itself, in whatever
    state the hook is: the effect sets the value to 0 and the start
    timestamp to null, and React records the cleared trigger.  Whether
    a callback is still pending is another matter (see below). *)
Lemma render_cleared_trigger (s : State) (q p : Props) :
  deps s = Some q -> trigger q = true -> trigger p = false ->
  value (render p s) = 0%Z /\
  startRef (render p s) = None /\
  deps (render p s) = Some p.
Proof.
  intros Hdeps Hq Hp. unfold render. rewrite Hdeps.
  unfold same_deps. rewrite Hq, Hp. cbn [Bool.eqb andb].
  unfold effect. rewrite Hp. cbn. auto.
Qed.

(** C9. In the middle of a run the hook does not return to idle when
    the trigger is cleared.  With target 350 and duration 2000, after
    the refreshes at 100 and 1100 (value 175) a render with the
    trigger cleared sets the value to 0 and the start to null at once,
    but the callback requested at 1100 (handle 3) stays pending: the
    cleanup cancels handle 1 only, as in C6.  The refresh at 1200
    latches a new start, and the refreshes at 1200, 2200 and 3200
    report 0, 175 and 350 while the trigger is off. *)
Theorem reset_mid_run_counts_again :
  let p := AnimatedCounter_props 350 true in
  let off := AnimatedCounter_props 350 false in
  let s := run fresh [Render p; Frame 100; Frame 1100; Render off] in
  value (run fresh [Render p; Frame 100; Frame 1100]) = 175%Z /\
  value s = 0%Z /\ startRef s = None /\ deps s = Some off /\
  cleanup s = None /\
  callbacks s = [(3%Z, loop 350 2000)] /\
  startRef (frame 1200 s) = Some 1200 /\
  reports s [1200; 2200; 3200] = [0; 175; 350]%Z /\
  callbacks (frames s [1200; 2200; 3200]) = [].
Proof. cbn zeta. repeat split. Qed.

End FrameAnimationFacts.

(** * Further properties of the hooks and the slider *)

Module InViewMore.
Import InView.

Lemma callback_hasAnimated_or o s entry :
  hasAnimated (callback o s entry) = hasAnimated s || isIntersecting entry.
Proof.
  unfold callback. destruct s as [v a]. cbn.
  destruct (isIntersecting entry), a, (once_is_false o); reflexivity.
Qed.

Lemma observe_hasAnimated_or o es :
  forall s,
  hasAnimated (observe o s es) = hasAnimated s || existsb isIntersecting es.
Proof.
  induction es as [|e es IH]; intros s; cbn.
  - now rewrite orb_false_r.
  - fold (observe o (callback o s e) es).
    rewrite IH, callback_hasAnimated_or. now rewrite orb_assoc.
Qed.

Lemma observe_inView_hasAnimated o es :
  forall s, (inView s = true -> hasAnimated s = true) ->
  inView (observe o s es) = true -> hasAnimated (observe o s es) = true.
Proof.
  induction es as [|e es IH]; intros s Hs; [exact Hs|].
  cbn. fold (observe o (callback o s e) es). apply IH.
  unfold callback. destruct s as [v a]. cbn in *.
  destruct (isIntersecting e), a, (once_is_false o); cbn; intros;
    auto; congruence.
Qed.

(** [hasAnimated] records whether any entry was intersecting, whatever
    the options, and [inView] is never true without it. *)
Theorem hasAnimated_iff_ever_intersected (o : Options) (es : list Entry) :
  hasAnimated (observe o initial es) = existsb isIntersecting es /\
  (inView (observe o initial es) = true ->
   hasAnimated (observe o initial es) = true).
Proof.
  split; [apply (observe_hasAnimated_or o es initial)|].
  apply (observe_inView_hasAnimated o es initial). cbn. congruence.
Qed.

(** Unless [once] is exactly [false], [inView] after any entries says
    whether some entry was intersecting. *)
Theorem latched_inView_iff_ever_intersected (o : Options) (es : list Entry) :
  once o <> Some false ->
  inView (observe o initial es) = existsb isIntersecting es.
Proof.
  intros Ho.
  assert (Hf : once_is_false o = false).
  { unfold once_is_false. destruct (once o) as [[|]|]; congruence. }
  assert (Hgen : forall s, inView s = hasAnimated s ->
            inView (observe o s es) = hasAnimated (observe o s es)).
  { induction es as [|e es IH]; intros s Hs; [exact Hs|].
    cbn. fold (observe o (callback o s e) es). apply IH.
    unfold callback. rewrite Hf. destruct s as [v a]. cbn in *.
    destruct (isIntersecting e), a; cbn; auto. }
  rewrite (Hgen initial eq_refl).
  apply (observe_hasAnimated_or o es initial).
Qed.

Lemma latched_inView_iff_ever_intersected_witness :
  inView (observe AnimatedSection_options initial [leaves; enters; leaves])
  = existsb isIntersecting [leaves; enters; leaves].
Proof.
  apply (latched_inView_iff_ever_intersected AnimatedSection_options).
  discriminate.
Defined.

Lemma entry_cases (e : Entry) : e = enters \/ e = leaves.
Proof. destruct e as [[|]]; auto. Qed.

Lemma forallb_enters es :
  forallb isIntersecting es = true -> es = repeat enters (length es).
Proof.
  induction es as [|e es IH]; cbn; [reflexivity|].
  intros H. apply andb_true_iff in H as [He Hes].
  destruct e as [[|]]; [|discriminate]. f_equal. now apply IH.
Qed.

(** With [once: false], [inView] is true exactly while the element,
    having entered for the first time, has not left yet: the entries
    are some non-intersecting ones followed by at least one
    intersecting one, and nothing else. *)
Theorem once_false_inView_iff_first_visit (o : Options) (es : list Entry) :
  once o = Some false ->
  (inView (observe o initial es) = true <->
   exists n m, es = repeat leaves n ++ repeat enters (S m)).
Proof.
  intros Ho.
  assert (Hf : once_is_false o = true) by (unfold once_is_false; now rewrite Ho).
  assert (Hon : forall l,
            inView (observe o {| inView := true; hasAnimated := true |} l)
            = forallb isIntersecting l).
  { assert (Hlv : callback o {| inView := true; hasAnimated := true |}
                    {| isIntersecting := false |}
                  = {| inView := false; hasAnimated := true |}).
    { unfold callback. cbn. now rewrite Hf. }
    induction l as [|e l IH]; [reflexivity|].
    change (inView (observe o (callback o {| inView := true; hasAnimated := true |} e) l)
            = forallb isIntersecting (e :: l)).
    destruct e as [[|]]; cbn [forallb isIntersecting andb].
    - exact IH.
    - rewrite Hlv. now apply InViewFacts.observe_stays_off. }
  induction es as [|e es IH].
  - split; [discriminate|]. intros (n & m & H).
    destruct n; discriminate.
  - cbn. fold (observe o (callback o initial e) es).
    destruct e as [[|]].
    + change (callback o initial {| isIntersecting := true |})
        with {| inView := true; hasAnimated := true |}.
      rewrite Hon. split.
      * intros H. exists 0%nat, (length es). cbn. f_equal.
        now apply forallb_enters.
      * intros (n & m & H). destruct n as [|n]; [|discriminate].
        cbn in H. injection H as ->. clear.
        induction m; cbn; auto.
    + assert (Hsame : callback o initial {| isIntersecting := false |} = initial).
      { unfold callback. cbn. rewrite Hf. reflexivity. }
      rewrite Hsame, IH. split.
      * intros (n & m & ->). exists (S n), m. reflexivity.
      * intros (n & m & H). destruct n as [|n]; [discriminate|].
        cbn in H. injection H as ->. eauto.
Qed.

Lemma once_false_inView_iff_first_visit_witness :
  inView (observe (MotionDiv_options false) initial
            [leaves; leaves; enters; enters]) = true.
Proof.
  apply (once_false_inView_iff_first_visit (MotionDiv_options false));
    [reflexivity|].
  exists 2%nat, 1%nat. reflexivity.
Defined.

End InViewMore.

Module CarouselMore.
Import Carousel CarouselView CarouselFacts.

(** In every state the slider can reach, exactly one interval is
    active and [intervalRef] holds its handle: clicks never pile up
    timers. *)
Theorem one_interval_active (images : list string) (es : list Event) (s : State) :
  run images mount es = Some s ->
  exists h due,
    intervalRef s = Some h /\ timers s = {[ h := due ]} /\
    size (timers s) = 1%nat.
Proof.
  intros Hrun.
  destruct (run_armed images es 0 mount s mount_armed Hrun)
    as (h & due & Href & _ & Htim & _).
  exists h, due. split; [exact Href|]. split; [exact Htim|].
  rewrite Htim. apply map_size_singleton.
Qed.

Lemma one_interval_active_witness :
  exists h due,
    intervalRef (handleNextClick HomePage_images
                   (handlePrevClick HomePage_images mount)) = Some h /\
    timers (handleNextClick HomePage_images
              (handlePrevClick HomePage_images mount)) = {[ h := due ]}.
Proof.
  destruct (one_interval_active HomePage_images [PrevClick; NextClick] _ eq_refl)
    as (h & due & Href & Htim & _).
  exists h, due. split; [exact Href | exact Htim].
Defined.

(** The cleanup of the effect, in any reachable state, removes the
    active interval: no timer is left and no automatic advance can run
    after the unmount. *)
Theorem unmount_stops_auto_advance (images : list string) (es : list Event) (s : State) :
  run images mount es = Some s ->
  timers (unmount s) = ∅ /\
  forall h, step images (unmount s) (IntervalFires h) = None.
Proof.
  intros Hrun.
  pose proof (unmount_clears images es s Hrun) as Hclear.
  split; [exact Hclear|].
  intros h. unfold step. rewrite Hclear, lookup_empty. reflexivity.
Qed.

Lemma unmount_stops_auto_advance_witness :
  exists s, run HomePage_images mount [Elapse 5000; IntervalFires 1; NextClick] = Some s /\
            timers (unmount s) = ∅.
Proof.
  eexists. split; [reflexivity|].
  exact (proj1 (unmount_stops_auto_advance HomePage_images
                  [Elapse 5000; IntervalFires 1; NextClick] _ eq_refl)).
Defined.

Lemma prev_next_index images i :
  0 < itemCount images -> 0 <= i < itemCount images ->
  prev_index images (next_index images i) = i /\
  next_index images (prev_index images i) = i.
Proof.
  intros HN Hi.
  destruct (next_index_mod images i HN Hi) as [Hn Hnb].
  destruct (prev_index_mod images i HN Hi) as [Hp Hpb].
  destruct (prev_index_mod images _ HN Hnb) as [-> _].
  destruct (next_index_mod images _ HN Hpb) as [-> _].
  rewrite Hn, Hp. split.
  - destruct (Z.eq_dec (i + 1) (itemCount images)) as [Heq | Hne].
    + rewrite Heq, Z.mod_same by lia.
      replace (0 - 1 + itemCount images) with i by lia.
      apply Z.mod_small. lia.
    + rewrite (Z.mod_small (i + 1)) by lia.
      replace (i + 1 - 1 + itemCount images) with (i + 1 * itemCount images) by lia.
      rewrite Z.mod_add by lia. apply Z.mod_small. lia.
  - destruct (Z.eq_dec i 0) as [-> | Hne].
    + replace (0 - 1 + itemCount images) with (itemCount images - 1) by lia.
      rewrite (Z.mod_small (itemCount images - 1)) by lia.
      replace (itemCount images - 1 + 1) with (itemCount images) by lia.
      apply Z.mod_same. lia.
    + replace (i - 1 + itemCount images) with (i - 1 + 1 * itemCount images) by lia.
      rewrite Z.mod_add by lia. rewrite (Z.mod_small (i - 1)) by lia.
      replace (i - 1 + 1) with i by lia. apply Z.mod_small. lia.
Qed.

(** Next and previous undo each other: in any reachable state of a
    slider with at least one image, a next followed by a previous (or a
    previous followed by a next) shows the same image as before. *)
Theorem next_prev_round_trip (images : list string) (es : list Event) (s : State) :
  0 < itemCount images ->
  run images mount es = Some s ->
  currentImageIndex (handlePrevClick images (handleNextClick images s))
    = currentImageIndex s /\
  currentImageIndex (handleNextClick images (handlePrevClick images s))
    = currentImageIndex s.
Proof.
  intros HN Hrun.
  assert (Hb : in_bounds images s)
    by (eapply run_in_bounds; eauto using mount_in_bounds).
  unfold handlePrevClick, handleNextClick.
  rewrite !resetTimer_index. cbn [currentImageIndex with_index].
  rewrite ?resetTimer_index. cbn [currentImageIndex with_index].
  now apply prev_next_index.
Qed.

Lemma next_prev_round_trip_witness :
  currentImageIndex (handlePrevClick HomePage_images
                       (handleNextClick HomePage_images
                          (handlePrevClick HomePage_images mount))) = 5.
Proof.
  assert (HN : 0 < itemCount HomePage_images) by reflexivity.
  exact (proj1 (next_prev_round_trip HomePage_images [PrevClick] _ HN eq_refl)).
Defined.

Lemma run_index_net images es :
  0 < itemCount images ->
  forall acc s s',
  in_bounds images s -> run images s es = Some s' ->
  currentImageIndex s'
  = (currentImageIndex s - acc
     + fold_left (fun acc e => match e with
                               | Elapse _ => acc
                               | IntervalFires _ => acc + 1
                               | PrevClick => acc - 1
                               | NextClick => acc + 1
                               end) es acc) mod itemCount images.
Proof.
  intros HN. induction es as [|e es IH]; intros acc s s' Hs Hrun; cbn in Hrun.
  - injection Hrun as <-. cbn. unfold in_bounds in Hs.
    replace (currentImageIndex s - acc + acc) with (currentImageIndex s) by lia.
    now rewrite Z.mod_small by lia.
  - destruct (step images s e) as [s1|] eqn:Hstep; [|discriminate].
    pose proof (step_in_bounds images s e s1 HN Hs Hstep) as Hs1.
    cbn [fold_left].
    match goal with |- context [fold_left _ es ?a] =>
      rewrite (IH a s1 s' Hs1 Hrun)
    end.
    assert (Hidx : exists k,
              currentImageIndex s1 - match e with
                                     | Elapse _ => acc
                                     | IntervalFires _ => acc + 1
                                     | PrevClick => acc - 1
                                     | NextClick => acc + 1
                                     end
              = currentImageIndex s - acc + k * itemCount images).
    { unfold in_bounds in Hs.
      destruct e as [ms|h| |]; unfold step in Hstep.
      - destruct (0 <=? ms); [|discriminate]. injection Hstep as <-.
        exists 0. cbn. lia.
      - destruct (timers s !! h) as [due|]; [|discriminate].
        destruct (due <=? now s); [|discriminate]. injection Hstep as <-.
        cbn. destruct (next_index_mod images _ HN Hs) as [-> _].
        exists (- ((currentImageIndex s + 1) / itemCount images)).
        pose proof (Z.div_mod (currentImageIndex s + 1) (itemCount images)).
        nia.
      - injection Hstep as <-. unfold handlePrevClick.
        rewrite resetTimer_index. cbn.
        destruct (prev_index_mod images _ HN Hs) as [-> _].
        exists (1 - ((currentImageIndex s - 1 + itemCount images) / itemCount images)).
        pose proof (Z.div_mod (currentImageIndex s - 1 + itemCount images) (itemCount images)).
        nia.
      - injection Hstep as <-. unfold handleNextClick.
        rewrite resetTimer_index. cbn.
        destruct (next_index_mod images _ HN Hs) as [-> _].
        exists (- ((currentImageIndex s + 1) / itemCount images)).
        pose proof (Z.div_mod (currentImageIndex s + 1) (itemCount images)).
        nia. }
    destruct Hidx as [k ->].
    match goal with |- (?a + ?k * ?n + ?f) mod _ = _ =>
      replace (a + k * n + f) with (a + f + k * n) by lia
    end.
    now rewrite Z.mod_add by lia.
Qed.

(** The image shown after any trace is the number of steps forward
    (next clicks and automatic advances) minus the number of steps back,
    modulo the number of images. *)
Theorem index_is_net_advance (images : list string) (es : list Event) (s : State) :
  0 < itemCount images ->
  run images mount es = Some s ->
  currentImageIndex s = net_advance es mod itemCount images.
Proof.
  intros HN Hrun.
  rewrite (run_index_net images es HN 0 mount s (mount_in_bounds images HN) Hrun).
  unfold net_advance. f_equal.
Qed.

Lemma index_is_net_advance_witness :
  exists s,
    run HomePage_images mount
      [NextClick; PrevClick; PrevClick; Elapse 5000; IntervalFires 4; PrevClick]
    = Some s /\
    currentImageIndex s = (-1) mod 6.
Proof.
  assert (HN : 0 < itemCount HomePage_images) by reflexivity.
  eexists. split; [reflexivity|].
  exact (index_is_net_advance HomePage_images
           [NextClick; PrevClick; PrevClick; Elapse 5000; IntervalFires 4; PrevClick]
           _ HN eq_refl).
Defined.

Lemma hot_count_none k a n :
  (k < Z.of_nat a \/ Z.of_nat (a + n) <= k) ->
  count_occ Z.eq_dec
    (map (fun index => if Z.of_nat index =? k then 1 else 0) (seq a n)) 1 = 0%nat.
Proof.
  revert a. induction n as [|n IH]; intros a Hk; [reflexivity|].
  cbn [seq map]. destruct (Z.eqb_spec (Z.of_nat a) k) as [Heq | Hne]; [lia|].
  rewrite count_occ_cons_neq by discriminate. apply IH. lia.
Qed.

Lemma hot_count_one k a n :
  Z.of_nat a <= k < Z.of_nat (a + n) ->
  count_occ Z.eq_dec
    (map (fun index => if Z.of_nat index =? k then 1 else 0) (seq a n)) 1 = 1%nat.
Proof.
  revert a. induction n as [|n IH]; intros a Hk; [lia|].
  cbn [seq map]. destruct (Z.eqb_spec (Z.of_nat a) k) as [Heq | Hne].
  - rewrite count_occ_cons_eq by reflexivity.
    rewrite hot_count_none; [reflexivity | lia].
  - rewrite count_occ_cons_neq by discriminate. apply IH. lia.
Qed.

(** In every reachable state of a slider with at least one image, the
    render gives opacity 1 to exactly one image, the one at
    [currentImageIndex], and opacity 0 to all others. *)
Theorem exactly_one_image_visible (images : list string) (es : list Event) (s : State) :
  0 < itemCount images ->
  run images mount es = Some s ->
  length (opacities images s) = length images /\
  count_occ Z.eq_dec (opacities images s) 1 = 1%nat /\
  nth (Z.to_nat (currentImageIndex s)) (opacities images s) 0 = 1 /\
  (forall index, Z.of_nat index <> currentImageIndex s ->
     nth index (opacities images s) 0 = 0).
Proof.
  intros HN Hrun.
  assert (Hb : in_bounds images s)
    by (eapply run_in_bounds; eauto using mount_in_bounds).
  unfold in_bounds, itemCount in Hb. unfold opacities.
  split; [now rewrite length_map, length_seq|].
  split; [apply hot_count_one; lia|].
  assert (Hnth : forall index,
            nth index (map (fun index => if Z.of_nat index =? currentImageIndex s
                                         then 1 else 0)
                           (seq 0 (length images))) 0
            = if (index <? length images)%nat
              then (if Z.of_nat index =? currentImageIndex s then 1 else 0)
              else 0).
  { intros index.
    set (f := fun index => if Z.of_nat index =? currentImageIndex s then 1 else 0).
    destruct (Nat.ltb_spec index (length images)) as [Hlt | Hge].
    - rewrite (nth_indep _ 0 (f 0%nat))
        by (now rewrite length_map, length_seq).
      rewrite map_nth, seq_nth by exact Hlt. reflexivity.
    - apply nth_overflow. now rewrite length_map, length_seq. }
  split.
  - rewrite Hnth.
    destruct (Nat.ltb_spec (Z.to_nat (currentImageIndex s)) (length images));
      [|lia].
    rewrite Z2Nat.id by lia. now rewrite Z.eqb_refl.
  - intros index Hne. rewrite Hnth.
    destruct (index <? length images)%nat; [|reflexivity].
    destruct (Z.eqb_spec (Z.of_nat index) (currentImageIndex s)); [contradiction|].
    reflexivity.
Qed.

Lemma exactly_one_image_visible_witness :
  exists s, run HomePage_images mount [PrevClick; Elapse 5000; IntervalFires 2; NextClick]
            = Some s /\
            opacities HomePage_images s = [0; 1; 0; 0; 0; 0].
Proof.
  assert (HN : 0 < itemCount HomePage_images) by reflexivity.
  eexists. split; [reflexivity|].
  destruct (exactly_one_image_visible HomePage_images
              [PrevClick; Elapse 5000; IntervalFires 2; NextClick] _ HN eq_refl)
    as (_ & _ & _ & _).
  reflexivity.
Defined.

Lemma on_time_state images k :
  0 < itemCount images ->
  run images mount (on_time k)
  = Some {| currentImageIndex := Z.of_nat k mod itemCount images;
            intervalRef := Some 1;
            timers := {[ 1 := period * (Z.of_nat k + 1) ]};
            nextHandle := 2;
            now := period * Z.of_nat k |}.
Proof.
  intros HN. induction k as [|k IH].
  - cbn [on_time run]. unfold mount, startAutoSlide, setInterval, with_ref, fresh.
    cbn. rewrite insert_empty, Z.mod_0_l by lia. reflexivity.
  - cbn [on_time]. rewrite run_app, IH. cbn [run].
    unfold step at 1. cbn [now currentImageIndex intervalRef timers nextHandle].
    replace (0 <=? period) with true by reflexivity.
    unfold step. cbn [now currentImageIndex intervalRef timers nextHandle].
    rewrite lookup_singleton_eq.
    replace (period * (Z.of_nat k + 1) <=? period * Z.of_nat k + period)
      with true by (symmetry; apply Z.leb_le; lia).
    unfold autoSlide, with_timers, with_index.
    cbn [now currentImageIndex intervalRef timers nextHandle].
    rewrite insert_singleton_eq. f_equal.
    replace (period * Z.of_nat k + period + period)
      with (period * (Z.of_nat (S k) + 1)) by lia.
    replace (period * Z.of_nat k + period) with (period * Z.of_nat (S k)) by lia.
    f_equal.
    unfold next_index.
    rewrite Z.rem_mod_nonneg
      by (pose proof (Z.mod_pos_bound (Z.of_nat k) _ HN); lia).
    rewrite Z.add_mod_idemp_l by lia. f_equal. lia.
Qed.

(** Left alone, with the host running the interval exactly when it is
    due, the slider shows image [k mod N] after [k] periods of 5000 ms,
    still on its first timer; time that passes short of the next period
    changes nothing.  For the six images of [HomePage], 12000 ms after
    the mount the index is 2. *)
Theorem auto_advance_on_time (images : list string) (k : nat) (ms : Z) :
  0 < itemCount images ->
  0 <= ms < period ->
  exists s,
    run images mount (on_time k ++ [Elapse ms]) = Some s /\
    currentImageIndex s = Z.of_nat k mod itemCount images /\
    intervalRef s = Some 1 /\
    now s = period * Z.of_nat k + ms /\
    (forall h, step images s (IntervalFires h) = None).
Proof.
  intros HN Hms. rewrite run_app, on_time_state by exact HN. cbn [run].
  unfold step at 1. cbn [now currentImageIndex intervalRef timers nextHandle].
  replace (0 <=? ms) with true by (symmetry; apply Z.leb_le; lia).
  eexists. split; [reflexivity|].
  cbn [now currentImageIndex intervalRef timers nextHandle].
  repeat split.
  intros h. unfold step. cbn [now timers].
  destruct ({[1 := period * (Z.of_nat k + 1)]} !! h) as [due|] eqn:Hlook;
    [|reflexivity].
  apply lookup_singleton_Some in Hlook as [<- <-].
  replace (period * (Z.of_nat k + 1) <=? period * Z.of_nat k + ms)
    with false by (symmetry; apply Z.leb_gt; lia).
  reflexivity.
Qed.

Lemma auto_advance_on_time_witness :
  exists s,
    run HomePage_images mount (on_time 2 ++ [Elapse 2000]) = Some s /\
    currentImageIndex s = 2 /\ now s = 12000.
Proof.
  assert (HN : 0 < itemCount HomePage_images) by reflexivity.
  assert (Hms : 0 <= 2000 < period) by (unfold period; lia).
  destruct (auto_advance_on_time HomePage_images 2 2000 HN Hms)
    as (s & Hrun & Hidx & _ & Hnow & _).
  exists s. split; [exact Hrun|]. split; [exact Hidx | exact Hnow].
Defined.

End CarouselMore.

Module FrameAnimationMore.
Import FrameAnimation FrameAnimationFacts.
Local Open Scope Q_scope.

Lemma cancel_own_request h a s :
  callbacks s = [(h, a)] -> callbacks (cancelAnimationFrame h s) = [].
Proof.
  intros Hcb. unfold cancelAnimationFrame. cbn. rewrite Hcb. cbn.
  rewrite decide_False by auto. reflexivity.
Qed.

(** When the trigger is cleared, or the component unmounts, before
    the first refresh, the cleanup does cancel the only request: no
    callback is left, and no later refresh changes the value from 0. *)
Theorem cleanup_before_first_refresh (e d : Q) (s : State) (ts : list Q) :
  idle s ->
  let s0 := render {| endValue := e; duration := d; trigger := true |} s in
  let off := {| endValue := e; duration := d; trigger := false |} in
  callbacks (unmount s0) = [] /\
  callbacks (render off s0) = [] /\
  value (frames (unmount s0) ts) = 0%Z /\
  value (frames (render off s0) ts) = 0%Z.
Proof.
  intros Hs. cbn zeta. rewrite (render_from_idle e d s Hs).
  assert (Hu : callbacks (unmount
                 {| value := 0; startRef := None;
                    deps := Some {| endValue := e; duration := d; trigger := true |};
                    cleanup := Some (nextHandle s);
                    callbacks := [(nextHandle s, loop e d)];
                    nextHandle := nextHandle s + 1 |}) = []).
  { unfold unmount, run_cleanup. cbn. rewrite decide_False by auto. reflexivity. }
  assert (Hr : callbacks (render {| endValue := e; duration := d; trigger := false |}
                 {| value := 0; startRef := None;
                    deps := Some {| endValue := e; duration := d; trigger := true |};
                    cleanup := Some (nextHandle s);
                    callbacks := [(nextHandle s, loop e d)];
                    nextHandle := nextHandle s + 1 |}) = []).
  { unfold render, run_cleanup. cbn. rewrite decide_False by auto. reflexivity. }
  split; [exact Hu|]. split; [exact Hr|].
  rewrite (frames_idle ts _ Hu), (frames_idle ts _ Hr).
  split; [reflexivity|].
  unfold render. cbn. reflexivity.
Qed.

Lemma cleanup_before_first_refresh_witness :
  value (frames (unmount (render (AnimatedCounter_props 350 true) fresh))
                [100; 1100; 2100]) = 0%Z.
Proof.
  assert (Hs : idle fresh) by (unfold idle; cbn; auto 6).
  destruct (cleanup_before_first_refresh (inject_Z 350) 2000 fresh
              [100; 1100; 2100] Hs) as (_ & _ & H & _).
  exact H.
Defined.

Lemma latched_at_frames_done e d t0 ts :
  0 < d -> ~ t0 == 0 -> forall s,
  latched_at e d t0 s -> Exists (fun t => t0 + d <= t) ts ->
  callbacks (frames s ts) = [].
Proof.
  intros Hd Ht0. induction ts as [|t ts IH]; intros s Hs Hex.
  - inversion Hex.
  - rewrite frames_cons.
    destruct (latched_at_frame e d Hd t0 t s Ht0 Hs) as [Hs' Hfull].
    inversion Hex as [? ? Hnow | ? ? Hlater]; subst.
    + destruct (Hfull Hnow) as [Hcb _]. now rewrite frames_idle.
    + now apply IH.
Qed.

(** A run ends: once a refresh has come at or after the first
    refresh plus the duration, no callback is scheduled any more and
    further refreshes leave the whole state as it is. *)
Theorem run_stops_scheduling (e d t0 : Q) (ts more : list Q) (s : State) :
  0 < d -> ~ t0 == 0 -> idle s ->
  Exists (fun t => t0 + d <= t) ts ->
  let s0 := render {| endValue := e; duration := d; trigger := true |} s in
  callbacks (frames (frame t0 s0) ts) = [] /\
  frames (frames (frame t0 s0) ts) more = frames (frame t0 s0) ts.
Proof.
  intros Hd Ht0 Hs Hex. cbn zeta.
  destruct (first_frame e d Hd s t0 Hs) as (_ & Hstart & Hcb).
  assert (Hdone : callbacks (frames (frame t0 (render {| endValue := e; duration := d;
                                                        trigger := true |} s)) ts) = []).
  { apply (latched_at_frames_done e d t0 ts Hd Ht0); [|exact Hex]. left. eauto. }
  split; [exact Hdone|]. now apply frames_idle.
Qed.

Lemma run_stops_scheduling_witness :
  callbacks (frames (frame 100 (render (AnimatedCounter_props 350 true) fresh))
                    [1100; 2100]) = [].
Proof.
  assert (Hd : 0 < 2000) by reflexivity.
  assert (Ht0 : ~ 100 == 0) by (intros H; discriminate H).
  assert (Hs : idle fresh) by (unfold idle; cbn; auto 6).
  assert (Hex : Exists (fun t => 100 + 2000 <= t) [1100; 2100]).
  { apply Exists_cons_tl, Exists_cons_hd. intros H; discriminate H. }
  exact (proj1 (run_stops_scheduling (inject_Z 350) 2000 100 [1100; 2100] []
                  fresh Hd Ht0 Hs Hex)).
Defined.

Lemma frames_at_most_one ts :
  forall s, (length (callbacks s) <= 1)%nat ->
  (length (callbacks (frames s ts)) <= 1)%nat.
Proof.
  induction ts as [|t ts IH]; intros s Hs; [exact Hs|].
  rewrite frames_cons. apply IH.
  destruct (callbacks s) as [|[h a] [|c l]] eqn:Hcb; [| |cbn in Hs; lia].
  - rewrite (frame_idle t s Hcb), Hcb. cbn. lia.
  - destruct (frame_single_spec t s h a Hcb) as (_ & _ & ->).
    destruct (Qlt_le_dec _ 1); cbn; lia.
Qed.

Lemma one_callback_pending_from e d ts s :
  idle s ->
  (length (callbacks
             (frames (render {| endValue := e; duration := d; trigger := true |} s) ts))
   <= 1)%nat.
Proof.
  intros Hs. apply frames_at_most_one.
  rewrite (render_from_idle e d s Hs). cbn. lia.
Qed.

(** A run started in the idle state never has more than one callback
    pending, whatever the timestamps of the refreshes. *)
Theorem one_callback_pending (e d : Q) (ts : list Q) (s : State) :
  idle s ->
  (length (callbacks
             (frames (render {| endValue := e; duration := d; trigger := true |} s) ts))
   <= 1)%nat.
Proof.
  intros Hs. apply frames_at_most_one.
  rewrite (render_from_idle e d s Hs). cbn. lia.
Qed.

Lemma one_callback_pending_witness :
  (length (callbacks
             (frames (render (AnimatedCounter_props 20 true) fresh)
                     [5; 900; 901]%Q))
   <= 1)%nat.
Proof.
  assert (Hs : idle fresh) by (unfold idle; cbn; auto 6).
  exact (one_callback_pending (inject_Z 20) 2000 [5; 900; 901] fresh Hs).
Defined.

(** With a target >= 0 and non-decreasing timestamps, every value a
    run reports lies between 0 and floor(target): the counter never
    shows a negative number and never overshoots. *)
Theorem reports_within_target (e d : Q) (ts : list Q) (s : State) :
  0 <= e -> 0 < d -> Sorted Qle ts -> idle s ->
  Forall (fun v => (0 <= v <= Qfloor e)%Z)
         (reports (render {| endValue := e; duration := d; trigger := true |} s) ts).
Proof.
  intros He Hd Hts Hs.
  set (s0 := render {| endValue := e; duration := d; trigger := true |} s).
  assert (Hv0 : value s0 = 0%Z)
    by (unfold s0; now rewrite (render_from_idle e d s Hs)).
  assert (Hinit : forall last, one_loop e d last s0).
  { intros last. unfold s0. rewrite (render_from_idle e d s Hs).
    unfold one_loop. cbn. auto. }
  assert (Hsome : exists last, Sorted Qle (last :: ts)).
  { destruct ts as [|t ts'].
    - exists 0. repeat constructor.
    - exists t. constructor; [exact Hts|]. constructor. apply Qle_refl. }
  destruct Hsome as [last Hsorted].
  destruct (one_loop_states e d Hd He ts last s0 (Hinit last) Hsorted)
    as [Hmono Hall].
  rewrite Hv0 in Hmono.
  apply Sorted_StronglySorted in Hmono; [|intros x y z; apply Z.le_trans].
  apply StronglySorted_inv in Hmono as [_ Hlow].
  assert (Hhigh : Forall (fun v => (v <= Qfloor e)%Z) (reports s0 ts)).
  { unfold reports. clear -Hall He.
    induction Hall as [|t s' ts' ss' (start & _ & Hval) _ IH]; cbn;
      constructor; [|exact IH].
    rewrite Hval. now apply value_at_le_floor. }
  clear -Hlow Hhigh.
  induction Hlow as [|v vs Hv _ IH]; [constructor|].
  inversion Hhigh; subst. constructor; [lia | now apply IH].
Qed.

Lemma reports_within_target_witness :
  Forall (fun v => (0 <= v <= 180)%Z)
         (reports (render (AnimatedCounter_props 180 true) fresh)
                  [100; 1100; 2100; 2200]).
Proof.
  assert (He : 0 <= inject_Z 180) by (intros H; discriminate H).
  assert (Hd : 0 < 2000) by reflexivity.
  assert (Hts : Sorted Qle [100; 1100; 2100; 2200]).
  { repeat constructor; intros H; discriminate H. }
  assert (Hs : idle fresh) by (unfold idle; cbn; auto 6).
  exact (reports_within_target (inject_Z 180) 2000 [100; 1100; 2100; 2200]
           fresh He Hd Hts Hs).
Defined.

(** A first refresh with timestamp 0 does not latch the start: 0 is
    falsy, so the next refresh latches its own timestamp, and that one
    is kept.  The run is measured from there: a refresh reports
    floor(target) once the duration has passed since the second
    timestamp, not since the first. *)
Theorem zero_timestamp_latches_again (e d t1 t : Q) (s : State) :
  0 < d -> ~ t1 == 0 -> idle s ->
  let s0 := render {| endValue := e; duration := d; trigger := true |} s in
  startRef (frames s0 [0]) = Some 0 /\
  value (frames s0 [0; t1]) = 0%Z /\
  startRef (frames s0 [0; t1]) = Some t1 /\
  startRef (frames s0 [0; t1; t]) = Some t1 /\
  (t1 + d <= t -> value (frames s0 [0; t1; t]) = Qfloor e).
Proof.
  intros Hd Ht1 Hs. cbn zeta.
  destruct (first_frame e d Hd s 0 Hs) as (Hv0 & Hst0 & Hcb0).
  set (s1 := frame 0 (render {| endValue := e; duration := d; trigger := true |} s)) in *.
  change (frames (render {| endValue := e; duration := d; trigger := true |} s) [0])
    with s1.
  change (frames (render {| endValue := e; duration := d; trigger := true |} s) [0; t1])
    with (frame t1 s1).
  change (frames (render {| endValue := e; duration := d; trigger := true |} s) [0; t1; t])
    with (frame t (frame t1 s1)).
  destruct (frame_single_spec t1 s1 _ _ Hcb0) as (Hst1 & Hv1 & Hcb1).
  assert (Hs1 : start_for t1 s1 = t1) by (unfold start_for; now rewrite Hst0).
  rewrite Hs1 in Hst1, Hv1, Hcb1.
  cbn [a_endValue a_duration loop] in Hv1, Hcb1.
  rewrite (value_at_start e d t1 Hd) in Hv1.
  destruct (Qlt_le_dec (ratio_of d (t1 - t1)) 1) as [Hlt | Hge];
    [|rewrite (ratio_of_start d t1 Hd) in Hge; lra].
  destruct (frame_single_spec t (frame t1 s1) _ _ Hcb1) as (Hst2 & Hv2 & _).
  assert (Hs2 : start_for t (frame t1 s1) = t1).
  { unfold start_for. rewrite Hst1. cbn.
    destruct (Qeq_bool t1 0) eqn:Hz; [|reflexivity].
    now apply Qeq_bool_iff in Hz. }
  rewrite Hs2 in Hst2, Hv2. cbn [a_endValue a_duration loop] in Hv2.
  repeat (split; [assumption|]).
  intros Hfull. rewrite Hv2. apply value_at_full; [exact Hd | lra].
Qed.

Lemma zero_timestamp_latches_again_witness :
  value (frames (render (AnimatedCounter_props 350 true) fresh) [0; 2000]) = 0%Z /\
  value (frames (render (AnimatedCounter_props 350 true) fresh) [0; 2000; 4000])
  = 350%Z.
Proof.
  assert (Hd : 0 < 2000) by reflexivity.
  assert (Ht1 : ~ 2000 == 0) by (intros H; discriminate H).
  assert (Hs : idle fresh) by (unfold idle; cbn; auto 6).
  assert (Hfull : 2000 + 2000 <= 4000) by (intros H; discriminate H).
  destruct (zero_timestamp_latches_again (inject_Z 350) 2000 2000 4000 fresh
              Hd Ht1 Hs) as (_ & H & _ & _ & Hend).
  split; [exact H | exact (Hend Hfull)].
Defined.

Lemma animate_keeps_effect a t s :
  deps (animate a t s) = deps s /\ cleanup (animate a t s) = cleanup s.
Proof. unfold animate. destruct (Qlt_le_dec _ 1); cbn; auto. Qed.

Lemma frame_keeps_effect t s :
  deps (frame t s) = deps s /\ cleanup (frame t s) = cleanup s.
Proof.
  unfold frame.
  assert (H : forall (l : list (Z * Animate)) s0,
            deps (fold_left (fun s' cb => animate (snd cb) t s') l s0) = deps s0 /\
            cleanup (fold_left (fun s' cb => animate (snd cb) t s') l s0) = cleanup s0).
  { induction l as [|c l IH]; intros s0; cbn; [auto|].
    destruct (IH (animate (snd c) t s0)) as [-> ->].
    apply animate_keeps_effect. }
  destruct (H (callbacks s) (set_callbacks [] s)) as [-> ->]. auto.
Qed.




End FrameAnimationMore.

Module AnimatedCounterFacts.
Import FrameAnimation FrameAnimationFacts FrameAnimationMore AnimatedCounter.
Local Open Scope Q_scope.

Lemma render_same p s : deps s = Some p -> render p s = s.
Proof.
  intros Hd. unfold render. rewrite Hd. unfold same_deps.
  now rewrite Bool.eqb_reflx, !Qeq_bool_refl.
Qed.

Section Counter.

Variable end_ : Q.

Local Abbreviation resting := (render (props end_ false) fresh).
Local Abbreviation seen :=
  ({| InView.inView := true; InView.hasAnimated := true |}).

Lemma resting_idle : idle resting.
Proof. unfold idle. cbn. repeat split. right. eexists. split; reflexivity. Qed.

Lemma entered_state :
  render (props end_ true) resting =
  {| value := 0; startRef := None; deps := Some (props end_ true);
     cleanup := Some 1%Z; callbacks := [(1%Z, loop end_ 2000)];
     nextHandle := 2 |}.
Proof.
  unfold props at 1. now rewrite (render_from_idle end_ 2000 _ resting_idle).
Qed.

Lemma step_before_entering s ev :
  tracker s = InView.initial -> animation s = resting ->
  match ev with
  | Observed entry =>
      if InView.isIntersecting entry
      then tracker (step end_ s ev) = seen /\
           animation (step end_ s ev) = render (props end_ true) resting
      else step end_ s ev = s
  | Refresh _ => step end_ s ev = s
  end.
Proof.
  destruct s as [tr an]. cbn [tracker animation]. intros -> ->.
  destruct ev as [[[|]]|t]; unfold step; cbn [tracker animation InView.isIntersecting].
  - split; reflexivity.
  - f_equal. apply render_same. reflexivity.
  - rewrite (frame_idle t resting eq_refl). f_equal.
    apply render_same. reflexivity.
Qed.

Lemma step_after_entering s ev :
  tracker s = seen -> deps (animation s) = Some (props end_ true) ->
  tracker (step end_ s ev) = seen /\
  deps (animation (step end_ s ev)) = Some (props end_ true) /\
  animation (step end_ s ev)
  = match ev with
    | Observed _ => animation s
    | Refresh t => frame t (animation s)
    end.
Proof.
  destruct s as [tr an]. cbn [tracker animation]. intros -> Hd.
  destruct ev as [entry|t]; unfold step; cbn [tracker animation].
  - assert (Htr : InView.callback InView.AnimatedCounter_options seen entry = seen).
    { unfold InView.callback. cbn. now rewrite !andb_false_r. }
    rewrite Htr. cbn [InView.inView]. rewrite (render_same _ _ Hd). auto.
  - assert (Hd' : deps (frame t an) = Some (props end_ true))
      by (now rewrite (proj1 (frame_keeps_effect t an))).
    cbn [InView.inView]. rewrite (render_same _ _ Hd'). auto.
Qed.

Lemma run_after_entering es :
  forall s,
  tracker s = seen -> deps (animation s) = Some (props end_ true) ->
  tracker (run end_ s es) = seen /\
  animation (run end_ s es) = frames (animation s) (timestamps es).
Proof.
  induction es as [|ev es IH]; intros s Htr Hd; [auto|].
  destruct (step_after_entering s ev Htr Hd) as (Htr' & Hd' & Han).
  change (run end_ s (ev :: es)) with (run end_ (step end_ s ev) es).
  destruct (IH _ Htr' Hd') as [-> ->]. split; [reflexivity|].
  rewrite Han. destruct ev; reflexivity.
Qed.

Lemma run_before_entering es :
  forall s,
  tracker s = InView.initial -> animation s = resting ->
  match after_entering es with
  | None => run end_ s es = s
  | Some rest =>
      tracker (run end_ s es) = seen /\
      animation (run end_ s es)
      = frames (render (props end_ true) resting) (timestamps rest)
  end.
Proof.
  induction es as [|ev es IH]; intros s Htr Han; [reflexivity|].
  pose proof (step_before_entering s ev Htr Han) as Hstep.
  change (run end_ s (ev :: es)) with (run end_ (step end_ s ev) es).
  destruct ev as [entry|t]; cbn [after_entering].
  - destruct (InView.isIntersecting entry).
    + destruct Hstep as [Htr' Han'].
      assert (Hd' : deps (animation (step end_ s (Observed entry)))
                    = Some (props end_ true)).
      { rewrite Han'. unfold props at 1.
        now rewrite (render_from_idle end_ 2000 _ resting_idle). }
      destruct (run_after_entering es _ Htr' Hd') as [-> ->].
      now rewrite Han'.
    + rewrite Hstep. now apply IH.
  - rewrite Hstep. now apply IH.
Qed.

End Counter.

(** In [AnimatedCounter] the animation runs one loop: nothing moves
    before the first intersecting entry, and from then on the trigger
    stays set, so that after any interleaving of observer entries and
    refreshes the animation is in the state of one run over the
    refreshes that came after that entry, with at most one callback
    pending. *)
Theorem counter_runs_one_loop (end_ : Q) (es : list Event) :
  match after_entering es with
  | None => run end_ (mount end_) es = mount end_
  | Some rest =>
      InView.inView (tracker (run end_ (mount end_) es)) = true /\
      animation (run end_ (mount end_) es)
      = frames (render (props end_ true) (render (props end_ false) fresh))
               (timestamps rest)
  end /\
  (length (callbacks (animation (run end_ (mount end_) es))) <= 1)%nat.
Proof.
  pose proof (run_before_entering end_ es (mount end_) eq_refl eq_refl) as H.
  destruct (after_entering es) as [rest|].
  - destruct H as [Htr Han]. rewrite Htr, Han. split; [auto|].
    apply one_callback_pending_from. apply resting_idle.
  - rewrite H. split; [reflexivity|]. cbn. lia.
Qed.

(** Once the element has entered, the first refresh after that
    (timestamp t0, not 0) starts the clock, and as soon as a refresh
    comes at or after t0 + 2000 the counter shows floor(end) (the
    [end] prop itself when it is a whole number) and nothing is
    scheduled any more. *)
Theorem counter_reaches_end (end_ t0 : Q) (es rest : list Event) (ts : list Q) :
  after_entering es = Some rest ->
  timestamps rest = t0 :: ts ->
  ~ t0 == 0 ->
  Exists (fun t => t0 + 2000 <= t) ts ->
  animatedNumber (run end_ (mount end_) es) = Qfloor end_ /\
  (forall n, end_ == inject_Z n ->
     animatedNumber (run end_ (mount end_) es) = n) /\
  callbacks (animation (run end_ (mount end_) es)) = [].
Proof.
  intros Hafter Hts Ht0 Hex.
  pose proof (run_before_entering end_ es (mount end_) eq_refl eq_refl) as H.
  rewrite Hafter in H. destruct H as [_ Han].
  unfold animatedNumber. rewrite Han, Hts, frames_cons.
  assert (Hd : 0 < 2000) by reflexivity.
  destruct (first_frame end_ 2000 Hd _ t0 (resting_idle end_)) as (_ & Hst & Hcb).
  assert (Hl : latched_at end_ 2000 t0
                 (frame t0 (render (props end_ true) (render (props end_ false) fresh)))).
  { left. eauto. }
  pose proof (latched_at_frames end_ 2000 Hd t0 ts Ht0 _ Hl Hex) as Hv.
  pose proof (latched_at_frames_done end_ 2000 t0 ts Hd Ht0 _ Hl Hex) as Hc.
  split; [exact Hv|]. split; [|exact Hc].
  intros n Hn. rewrite Hv. now apply Qfloor_integer.
Qed.

Lemma counter_reaches_end_witness :
  animatedNumber
    (run 350 (mount 350)
       [Refresh 50; Observed InView.leaves; Observed InView.enters;
        Refresh 100; Observed InView.leaves; Refresh 1100; Refresh 2100])
  = 350%Z.
Proof.
  assert (Ht0 : ~ 100 == 0) by (intros H; discriminate H).
  assert (Hex : Exists (fun t => 100 + 2000 <= t) [1100; 2100]).
  { apply Exists_cons_tl, Exists_cons_hd. intros H; discriminate H. }
  destruct (counter_reaches_end 350 100
              [Refresh 50; Observed InView.leaves; Observed InView.enters;
               Refresh 100; Observed InView.leaves; Refresh 1100; Refresh 2100]
              [Refresh 100; Observed InView.leaves; Refresh 1100; Refresh 2100]
              [1100; 2100] eq_refl eq_refl Ht0 Hex) as (_ & Hn & _).
  exact (Hn 350%Z (Qeq_refl _)).
Defined.

Section Monotone.

Variable end_ : Q.
Hypothesis end_nonneg : 0 <= end_.

Lemma floor_end_nonneg : (0 <= Qfloor end_)%Z.
Proof. change 0%Z with (Qfloor 0). now apply Qfloor_resp_le. Qed.

Lemma one_loop_value_le last s :
  one_loop end_ 2000 last s -> (value s <= Qfloor end_)%Z.
Proof.
  unfold one_loop.
  destruct (callbacks s) as [|[h a] [|c l]]; [| |contradiction].
  - intros (start & _ & -> & _). lia.
  - intros [_ H]. destruct (unset (startRef s)).
    + rewrite H. apply floor_end_nonneg.
    + destruct H as (start & _ & ->). now apply value_at_le_floor.
Qed.

Lemma counting_value_le last s :
  counting end_ last s -> (animatedNumber s <= Qfloor end_)%Z.
Proof.
  unfold animatedNumber. intros [[_ ->] | (_ & _ & Hloop)].
  - cbn. apply floor_end_nonneg.
  - now apply (one_loop_value_le last).
Qed.

Lemma counting_step last s ev :
  counting end_ last s ->
  (forall t, ev = Refresh t -> last <= t) ->
  counting end_ (match ev with Refresh t => t | Observed _ => last end)
           (step end_ s ev) /\
  (animatedNumber s <= animatedNumber (step end_ s ev))%Z.
Proof.
  intros [[Htr Han] | (Htr & Hd & Hloop)] Hle.
  - pose proof (step_before_entering end_ s ev Htr Han) as Hstep.
    destruct ev as [entry|t].
    + destruct (InView.isIntersecting entry).
      * destruct Hstep as [Htr' Han']. unfold animatedNumber.
        rewrite Han, Han', entered_state.
        split; [|cbn; lia].
        right. split; [exact Htr'|]. rewrite Han', entered_state.
        split; [reflexivity|]. unfold one_loop. cbn. auto.
      * rewrite Hstep. split; [left; auto | lia].
    + rewrite Hstep. split; [left; auto | lia].
  - destruct (step_after_entering end_ s ev Htr Hd) as (Htr' & Hd' & Han').
    unfold animatedNumber. rewrite Han'.
    destruct ev as [entry|t].
    + split; [|lia]. right. rewrite Han'. auto.
    + destruct (one_loop_frame end_ 2000 eq_refl end_nonneg last t _ Hloop
                  (Hle t eq_refl)) as (Hloop' & Hmono & _).
      split; [|exact Hmono]. right.
      split; [exact Htr'|]. split; [exact Hd'|]. rewrite Han'. exact Hloop'.
Qed.

Lemma numbers_sorted es :
  forall last s,
  counting end_ last s -> Sorted Qle (last :: timestamps es) ->
  Sorted Z.le (animatedNumber s :: numbers end_ s es) /\
  Forall (fun v => (v <= Qfloor end_)%Z) (numbers end_ s es).
Proof.
  induction es as [|ev es IH]; intros last s Hs Hsorted.
  - split; repeat constructor.
  - assert (Hle : forall t, ev = Refresh t -> last <= t).
    { intros t ->. cbn in Hsorted. apply Sorted_inv in Hsorted as [_ Hhd].
      now apply HdRel_inv in Hhd. }
    destruct (counting_step last s ev Hs Hle) as [Hs' Hmono].
    assert (Hsorted' : Sorted Qle ((match ev with Refresh t => t | Observed _ => last end)
                                   :: timestamps es)).
    { destruct ev as [entry|t]; cbn in Hsorted; [exact Hsorted|].
      now apply Sorted_inv in Hsorted as [Hsorted _]. }
    destruct (IH _ _ Hs' Hsorted') as [Hsort Hall].
    cbn [numbers]. split.
    + constructor; [exact Hsort|]. constructor. exact Hmono.
    + constructor; [|exact Hall]. now apply (counting_value_le _ _ Hs').
Qed.

End Monotone.

(** With [end] >= 0 and refresh timestamps that do not decrease, the
    number [AnimatedCounter] shows never decreases over any interleaving
    of observer entries and refreshes, and stays between 0 and
    floor(end). *)
Theorem counter_never_decreases (end_ : Q) (es : list Event) :
  0 <= end_ -> Sorted Qle (timestamps es) ->
  Sorted Z.le (0%Z :: numbers end_ (mount end_) es) /\
  Forall (fun v => (0 <= v <= Qfloor end_)%Z) (numbers end_ (mount end_) es).
Proof.
  intros He Hts.
  assert (Hsome : exists last, Sorted Qle (last :: timestamps es)).
  { destruct (timestamps es) as [|t ts'].
    - exists 0. repeat constructor.
    - exists t. constructor; [exact Hts|]. constructor. apply Qle_refl. }
  destruct Hsome as [last Hsorted].
  assert (Hinit : counting end_ last (mount end_)) by (left; auto).
  destruct (numbers_sorted end_ He es last (mount end_) Hinit Hsorted)
    as [Hsort Hhigh].
  change (animatedNumber (mount end_)) with 0%Z in Hsort.
  split; [exact Hsort|].
  apply Sorted_StronglySorted in Hsort; [|intros x y z; apply Z.le_trans].
  apply StronglySorted_inv in Hsort as [_ Hlow].
  clear -Hlow Hhigh.
  induction Hlow as [|v vs Hv _ IH]; [constructor|].
  inversion Hhigh; subst. constructor; [lia | now apply IH].
Qed.

Lemma counter_never_decreases_witness :
  Sorted Z.le
    (0%Z :: numbers 350 (mount 350)
              [Refresh 50; Observed InView.enters; Refresh 100;
               Observed InView.leaves; Refresh 1100; Refresh 2100]).
Proof.
  assert (He : 0 <= 350) by (intros H; discriminate H).
  assert (Hts : Sorted Qle (timestamps
                  [Refresh 50; Observed InView.enters; Refresh 100;
                   Observed InView.leaves; Refresh 1100; Refresh 2100])).
  { cbn. repeat constructor; intros H; discriminate H. }
  exact (proj1 (counter_never_decreases 350 _ He Hts)).
Defined.

End AnimatedCounterFacts.

Module ParallaxFacts.
Import Parallax.
Local Open Scope Q_scope.

Lemma handleScroll_effect speed page s :
  listeners (handleScroll speed page s) = listeners s /\
  deps (handleScroll speed page s) = deps s /\
  cleanup (handleScroll speed page s) = cleanup s.
Proof. unfold handleScroll. destruct (element page); cbn; auto. Qed.

Lemma mount_listening speed page s :
  deps s = None -> listeners s = [] -> listening (render speed page s).
Proof.
  intros Hd Hl. unfold render. rewrite Hd. unfold effect, addEventListener.
  cbn. rewrite Hl. exists (nextListener s), speed.
  destruct (handleScroll_effect speed page
              {| transformY := transformY s; deps := Some speed; cleanup := cleanup s;
                 listeners := [] ++ [(nextListener s, speed)];
                 nextListener := nextListener s + 1 |}) as (-> & -> & _).
  cbn. auto.
Qed.

Lemma scroll_listening page s :
  listening s ->
  listening (scroll page s) /\
  exists speed, deps s = Some speed /\
                scroll page s = handleScroll speed page s.
Proof.
  intros (id & speed & Hl & Hd & Hc).
  assert (Hs : scroll page s = handleScroll speed page s)
    by (unfold scroll; now rewrite Hl).
  split; [|eauto]. rewrite Hs.
  destruct (handleScroll_effect speed page s) as (Hl' & Hd' & Hc').
  exists id, speed. rewrite Hl', Hd', Hc'. auto.
Qed.

Lemma render_listening speed page s :
  listening s -> listening (render speed page s).
Proof.
  intros (id & old & Hl & Hd & Hc). unfold render. rewrite Hd.
  destruct (Qeq_bool old speed); [exists id, old; auto|].
  unfold run_cleanup, set_deps, removeEventListener, effect, addEventListener.
  rewrite Hc. cbn. rewrite Hl. cbn. rewrite decide_False by auto. cbn.
  exists (nextListener s), speed.
  match goal with |- context [handleScroll speed page ?s0] =>
    destruct (handleScroll_effect speed page s0) as (-> & -> & _)
  end.
  cbn. auto.
Qed.

Lemma run_listening es :
  forall s, listening s -> listening (run s es).
Proof.
  induction es as [|e es IH]; intros s Hs; [exact Hs|].
  cbn. fold (run (step s e) es). apply IH.
  destruct e as [speed page|page]; cbn.
  - now apply render_listening.
  - now apply scroll_listening.
Qed.

Lemma unmount_listening s : listening s -> listeners (unmount s) = [].
Proof.
  destruct s as [y dp cl ls nl]. intros (id & speed & Hl & Hd & Hc).
  cbn in Hl, Hd, Hc. subst.
  unfold unmount, run_cleanup, removeEventListener. cbn.
  now rewrite decide_False by auto.
Qed.

(** However often the component renders (also with a new speed) and
    the page scrolls, exactly one scroll listener is registered while
    it is mounted, carrying the speed of the last effect; the unmount
    removes it and leaves none. *)
Theorem parallax_one_listener (speed : Q) (page : Layout) (es : list Event) :
  let s := run (render speed page fresh) es in
  listening s /\ length (listeners s) = 1%nat /\ listeners (unmount s) = [].
Proof.
  cbn zeta.
  assert (Hs : listening (run (render speed page fresh) es)).
  { apply run_listening. now apply mount_listening. }
  split; [exact Hs|]. split; [|now apply unmount_listening].
  destruct Hs as (id & sp & Hl & _). now rewrite Hl.
Qed.




Lemma step_unattached s e :
  element (page_of e) = None -> transformY (step s e) = transformY s.
Proof.
  intros He. destruct e as [speed page|page]; cbn in *.
  - unfold render.
    assert (H : forall s0, transformY (effect speed page s0) = transformY s0).
    { intros s0. unfold effect, addEventListener, handleScroll. cbn.
      now rewrite He. }
    destruct (deps s) as [old|].
    + destruct (Qeq_bool old speed); [reflexivity|]. rewrite H.
      unfold run_cleanup. destruct (cleanup s); reflexivity.
    + now rewrite H.
  - unfold scroll.
    assert (H : forall (l : list (Z * Q)) s0,
              fold_left (fun s' l => handleScroll (snd l) page s') l s0 = s0).
    { induction l as [|x l IH]; intros s0; cbn; [reflexivity|].
      unfold handleScroll at 2. rewrite He. apply IH. }
    now rewrite H.
Qed.

(** While the ref is attached to no element, nothing moves:
    [transformY] keeps its initial 0 through any renders and scrolls. *)
Theorem parallax_unattached_stays_zero (es : list Event) :
  Forall (fun e => element (page_of e) = None) es ->
  transformY (run fresh es) = 0.
Proof.
  intros Hall.
  assert (H : forall s, transformY (run s es) = transformY s).
  { induction Hall as [|e es' He _ IH]; intros s; [reflexivity|].
    cbn. fold (run (step s e) es'). rewrite IH. now apply step_unattached. }
  now rewrite H.
Qed.

Lemma parallax_unattached_stays_zero_witness :
  transformY (run fresh
                [Render HomePage_speed {| element := None; innerHeight := 800 |};
                 Scroll {| element := None; innerHeight := 800 |};
                 Scroll {| element := None; innerHeight := 600 |}]) = 0.
Proof.
  apply parallax_unattached_stays_zero. repeat constructor.
Defined.

(** For an element whose top is inside a viewport of positive height,
    the offset lies between 0 and 100 times the speed: between -20 and
    0 for the speed -0.2 of [HomePage], and it is 0 when the element
    sits at the top of the viewport. *)
Theorem parallax_offset_bounds (speed top viewportHeight : Q) :
  0 < viewportHeight -> 0 <= top <= viewportHeight ->
  (0 <= speed -> 0 <= offset speed top viewportHeight <= speed * 100) /\
  (speed <= 0 -> speed * 100 <= offset speed top viewportHeight <= 0) /\
  offset speed 0 viewportHeight == 0 /\
  offset speed viewportHeight viewportHeight == speed * 100.
Proof.
  intros Hvh [Hlo Hhi]. unfold offset.
  assert (Hr0 : 0 <= top / viewportHeight).
  { apply Qle_shift_div_l; [exact Hvh|]. now rewrite Qmult_0_l. }
  assert (Hr1 : top / viewportHeight <= 1).
  { apply Qle_shift_div_r; [exact Hvh|]. now rewrite Qmult_1_l. }
  set (r := top / viewportHeight) in *.
  assert (Hne : ~ viewportHeight == 0) by lra.
  split; [|split; [|split]].
  - intros Hs. split; nra.
  - intros Hs. split; nra.
  - unfold Qdiv. ring.
  - field. exact Hne.
Qed.

Lemma parallax_offset_bounds_witness :
  HomePage_speed * 100 <= offset HomePage_speed 200 800 <= 0.
Proof.
  assert (Hvh : 0 < 800) by reflexivity.
  assert (Htop : 0 <= 200 <= 800) by (split; intros H; discriminate H).
  assert (Hs : HomePage_speed <= 0) by (intros H; discriminate H).
  exact (proj1 (proj2 (parallax_offset_bounds HomePage_speed 200 800 Hvh Htop)) Hs).
Defined.

End ParallaxFacts.

Module ContactPageFacts.
Import ContactPage.

(** The timeout set at the mount is never cancelled: when the
    submission succeeds T ms after the mount, T < 7000, the text is set
    and then removed by that first timeout, 7000 - T ms later, while
    [succeeded] is still true (the heading is left empty). *)
Theorem mount_timeout_clears_early (T : Z) :
  0 <= T < display_time ->
  exists shown cleared,
    run fresh [Render false; Elapse T; Render true; Elapse (display_time - T)]
      = Some shown /\
    successmessage shown = sent_text /\
    step shown (TimeoutFires 1) = Some cleared /\
    now cleared = display_time /\
    successmessage cleared = ""%string /\
    heading true cleared = Some ""%string.
Proof.
  intros HT. unfold display_time in *.
  cbn [run step].
  replace (0 <=? T) with true by (symmetry; apply Z.leb_le; lia).
  cbn [run step].
  replace (0 <=? 7000 - T) with true by (symmetry; apply Z.leb_le; lia).
  eexists _, _. split; [reflexivity|]. split; [reflexivity|].
  unfold step. cbn [timeouts render effect set_deps deps fresh Bool.eqb now nextHandle].
  rewrite lookup_insert_ne by lia. rewrite lookup_insert_eq.
  replace (0 + display_time <=? 0 + T + (7000 - T)) with true
    by (symmetry; apply Z.leb_le; unfold display_time; lia).
  split; [reflexivity|]. cbn. repeat split. lia.
Qed.

Lemma mount_timeout_clears_early_witness :
  exists shown cleared,
    run fresh [Render false; Elapse 6000; Render true; Elapse 1000] = Some shown /\
    successmessage shown = sent_text /\
    step shown (TimeoutFires 1) = Some cleared /\
    successmessage cleared = ""%string.
Proof.
  assert (HT : 0 <= 6000 < display_time) by (unfold display_time; lia).
  destruct (mount_timeout_clears_early 6000 HT)
    as (shown & cleared & Hrun & Htext & Hstep & _ & Hclear & _).
  exists shown, cleared. auto.
Defined.

Lemma step_displaying since s e s' :
  displaying since s -> step s e = Some s' -> displaying since s'.
Proof.
  intros (Hnow & Hall & Htext) Hstep.
  destruct e as [b|v|v|v|ms|h]; unfold step in Hstep.
  - injection Hstep as <-. unfold render.
    assert (He : displaying since (effect (set_deps (Some b) s))).
    { unfold displaying. cbn. split; [exact Hnow|]. split; [|reflexivity].
      apply map_Forall_insert_2; [lia | exact Hall]. }
    destruct (deps s) as [old|]; [|exact He].
    destruct (Bool.eqb old b); [|exact He].
    unfold displaying. auto.
  - injection Hstep as <-. unfold displaying. cbn. auto.
  - injection Hstep as <-. unfold displaying. cbn. auto.
  - injection Hstep as <-. unfold displaying. cbn. auto.
  - destruct (0 <=? ms) eqn:Hms; [|discriminate]. injection Hstep as <-.
    apply Z.leb_le in Hms. unfold displaying. cbn.
    split; [lia|]. split; [exact Hall|]. intros H. apply Htext. lia.
  - destruct (timeouts s !! h) as [due|] eqn:Hlook; [|discriminate].
    destruct (due <=? now s) eqn:Hdue; [|discriminate]. injection Hstep as <-.
    apply Z.leb_le in Hdue.
    pose proof (map_Forall_lookup_1 _ _ _ _ Hall Hlook) as Hlate. cbn in Hlate.
    unfold displaying. cbn. split; [exact Hnow|].
    split; [now apply map_Forall_delete|]. intros H. lia.
Qed.

Lemma run_displaying since es :
  forall s s', displaying since s -> run s es = Some s' -> displaying since s'.
Proof.
  induction es as [|e es IH]; intros s s' Hs Hrun; cbn in Hrun.
  - now injection Hrun as <-.
  - destruct (step s e) as [s1|] eqn:Hstep; [|discriminate].
    eapply IH; [|exact Hrun]. eapply step_displaying; eauto.
Qed.

(** When [state.succeeded] changes while no timeout is pending, the
    text stays for the full 7000 ms: whatever the user types and
    however the component renders in between, the text is still there
    at any time before that. *)
Theorem text_stays_full_time
    (s0 s : State) (old succeeded : bool) (es : list Event) :
  timeouts s0 = ∅ -> deps s0 = Some old -> old <> succeeded ->
  run (render succeeded s0) es = Some s ->
  now s < now s0 + display_time ->
  successmessage s = sent_text.
Proof.
  intros Hno Hd Hne Hrun Hbefore.
  assert (Hinit : displaying (now s0) (render succeeded s0)).
  { unfold render. rewrite Hd.
    replace (Bool.eqb old succeeded) with false
      by (destruct old, succeeded; cbn; congruence).
    unfold displaying. cbn. split; [lia|]. split; [|reflexivity].
    rewrite Hno. apply map_Forall_insert_2; [lia | apply map_Forall_empty]. }
  destruct (run_displaying (now s0) es _ s Hinit Hrun) as (_ & _ & Htext).
  now apply Htext.
Qed.

Lemma text_stays_full_time_witness :
  exists s0 s,
    run fresh [Render false; Elapse 8000; TimeoutFires 1] = Some s0 /\
    run (render true s0) [SetName "Asha"%string; Elapse 6999; Render true] = Some s /\
    successmessage s = sent_text.
Proof.
  let r := eval vm_compute in (run fresh [Render false; Elapse 8000; TimeoutFires 1]) in
  match r with Some ?x => pose (s0 := x) end.
  exists s0. eexists. split; [reflexivity|]. split; [reflexivity|].
  apply (text_stays_full_time s0 _ false true
           [SetName "Asha"%string; Elapse 6999; Render true]).
  - reflexivity.
  - reflexivity.
  - discriminate.
  - reflexivity.
  - cbn. unfold display_time. lia.
Defined.

End ContactPageFacts.

Module ContactFormFacts.
Import ContactForm.

(** The banner is green exactly for a response with [ok]: while the
    request is on its way, after a response without [ok] and after an
    exception the status is shown in red; before the first submission
    there is no banner. *)
Theorem banner_green_iff_ok (s : State) (o : Outcome) :
  banner fresh = None /\
  banner (submit s) = Some (Red, sending_text) /\
  banner (settle o s)
  = Some (match o with Ok => Green | _ => Red end,
          match o with
          | Ok => success_text
          | NotOk => failure_text
          | Threw => error_text
          end).
Proof. split; [reflexivity|]. split; [reflexivity|]. destruct o; reflexivity. Qed.



Lemma step_status s e : status s <> ""%string -> status (step s e) <> ""%string.
Proof.
  intros Hs. destruct e as [v|v|v| |o]; cbn; try exact Hs.
  - discriminate.
  - destruct o; discriminate.
Qed.

(** Once the user has submitted, the banner never disappears again:
    in every later state there is a status to show. *)
Theorem banner_stays_after_submit (s : State) (es : list Event) :
  exists colour,
    banner (run (submit s) es) = Some (colour, status (run (submit s) es)).
Proof.
  assert (H : forall s0, status s0 <> ""%string -> status (run s0 es) <> ""%string).
  { induction es as [|e es IH]; intros s0 Hs0; [exact Hs0|].
    cbn. fold (run (step s0 e) es). apply IH. now apply step_status. }
  specialize (H (submit s) ltac:(discriminate)).
  unfold banner. destruct (String.eqb_spec (status (run (submit s) es)) "");
    [contradiction | eauto].
Qed.

End ContactFormFacts.

Module NavigationFacts.
Import Navigation.

Lemma page_ids : map fst navLinks = ["home"; "about"; "services"; "projects"; "contact"]%string.
Proof. reflexivity. Qed.

Lemma step_known_page s e s' :
  In (currentPage s) (map fst navLinks) -> step s e = Some s' ->
  In (currentPage s') (map fst navLinks).
Proof.
  intros Hs Hstep.
  destruct e as [ |index| | |index|index| | | |y]; unfold step in Hstep.
  - injection Hstep as <-. cbn. auto.
  - destruct (nth_error navLinks index) as [link|] eqn:Hnth; [|discriminate].
    injection Hstep as <-. cbn [currentPage handleNavClick navigateTo].
    apply in_map. eapply nth_error_In; eauto.
  - injection Hstep as <-. cbn. auto 6.
  - injection Hstep as <-. exact Hs.
  - destruct (isMenuOpen s); [|discriminate].
    destruct (nth_error navLinks index) as [link|] eqn:Hnth; [|discriminate].
    injection Hstep as <-. cbn [currentPage handleNavClick navigateTo].
    apply in_map. eapply nth_error_In; eauto.
  - destruct (nth_error footerLinks index) as [page|] eqn:Hnth; [|discriminate].
    injection Hstep as <-. cbn [currentPage navigateTo].
    apply nth_error_In in Hnth. cbn in Hnth |- *. intuition.
  - injection Hstep as <-. cbn. auto 6.
  - destruct (renderPage (currentPage s)); try discriminate.
    injection Hstep as <-. cbn. auto 6.
  - destruct (renderPage (currentPage s)); try discriminate.
    injection Hstep as <-. cbn. auto 6.
  - injection Hstep as <-. exact Hs.
Qed.

Lemma run_known_page es :
  forall s s',
  In (currentPage s) (map fst navLinks) -> run s es = Some s' ->
  In (currentPage s') (map fst navLinks).
Proof.
  induction es as [|e es IH]; intros s s' Hs Hrun; cbn in Hrun.
  - now injection Hrun as <-.
  - destruct (step s e) as [s1|] eqn:Hstep; [|discriminate].
    eapply IH; [|exact Hrun]. eapply step_known_page; eauto.
Qed.

(** Whatever the user clicks, in the header, the mobile menu, the
    footer or the home page, [currentPage] is one of the five ids of
    [navLinks]: exactly one link of the header is highlighted, and the
    page rendered is the one of that link, never the [default]. *)
Theorem one_link_highlighted (es : list Event) (s : State) :
  run initial es = Some s ->
  exists link,
    List.filter (active s) navLinks = [link] /\
    currentPage s = fst link /\
    (renderPage (currentPage s) = HomePage <-> currentPage s = "home"%string).
Proof.
  intros Hrun.
  assert (Hin : In (currentPage s) (map fst navLinks)).
  { eapply run_known_page; [|exact Hrun]. cbn. auto. }
  destruct s as [page menu y]. cbn [currentPage] in *. unfold active.
  cbn [currentPage].
  cbn in Hin.
  destruct Hin as [<- | [<- | [<- | [<- | [<- | []]]]]];
    eexists; (split; [reflexivity|]); (split; [reflexivity|]);
    cbn; split; intros H; (reflexivity || discriminate H).
Qed.

Lemma one_link_highlighted_witness :
  exists s,
    run initial [ToggleMenu; MobileLink 2; FooterLink 0; UserScroll 300] = Some s /\
    List.filter (active s) navLinks = [("about", "About Us")%string].
Proof.
  eexists. split; [reflexivity|].
  destruct (one_link_highlighted
              [ToggleMenu; MobileLink 2; FooterLink 0; UserScroll 300] _ eq_refl)
    as (link & Hf & _).
  reflexivity.
Defined.

(** [navigateTo] takes any string.  For an id that is not one of the
    five, [renderPage] falls back to the home page, the window is
    scrolled to the top, and no link of the header is highlighted,
    not even Home. *)
Theorem unknown_page_falls_back (page : string) (s : State) :
  ~ In page (map fst navLinks) ->
  renderPage (currentPage (navigateTo page s)) = HomePage /\
  scrollY (navigateTo page s) = 0 /\
  List.filter (active (navigateTo page s)) navLinks = [].
Proof.
  intros Hnot. cbn in Hnot.
  assert (H1 : String.eqb page "home" = false) by (apply String.eqb_neq; intuition).
  assert (H2 : String.eqb page "about" = false) by (apply String.eqb_neq; intuition).
  assert (H3 : String.eqb page "services" = false) by (apply String.eqb_neq; intuition).
  assert (H4 : String.eqb page "projects" = false) by (apply String.eqb_neq; intuition).
  assert (H5 : String.eqb page "contact" = false) by (apply String.eqb_neq; intuition).
  unfold renderPage, active, navLinks.
  cbn [currentPage navigateTo scrollY List.filter fst].
  now rewrite H1, H2, H3, H4, H5.
Qed.

Lemma unknown_page_falls_back_witness :
  renderPage (currentPage (navigateTo "careers" initial)) = HomePage /\
  List.filter (active (navigateTo "careers" initial)) navLinks = [].
Proof.
  assert (Hnot : ~ In "careers"%string (map fst navLinks)).
  { cbn. intros [H | [H | [H | [H | [H | []]]]]]; discriminate H. }
  destruct (unknown_page_falls_back "careers" initial Hnot) as (Hp & _ & Hf).
  split; [exact Hp | exact Hf].
Defined.

End NavigationFacts.
